(** * ASR_0.2: the line-packet protocol and the streaming session

    A shallow embedding of [faster_whisper/line_packet.py] (packet framing,
    [Connection], [ServerProcessor]) and of the simulation driver in
    [faster_whisper/whisper_online.py], followed by the properties of the
    design document that concern them.

    Conventions.
    - A Python [str] is a list of Unicode code points, a [bytes] object a
      list of byte values, both carried by [Z].
    - Python floats that carry time stamps are modelled by exact rationals
      ([Q]); comparisons and [max] are the order-theoretic ones.
    - A socket is a record holding what the peer will deliver and what has
      been written so far; the engine is a parameter of the session. *)

From Stdlib Require Import ZArith QArith Qround Qabs List Bool Lia Lqa String Ascii.
Import ListNotations.

Local Open Scope Z_scope.

(** ** Python built-ins used by the two modules *)
Module Py.

Definition str := list Z.
Definition bytes := list Z.

(** An ASCII literal as a [str]. *)
Definition lit (s : string) : str :=
  map (fun a => Z.of_N (N_of_ascii a)) (list_ascii_of_string s).

Fixpoint str_eqb (a b : str) : bool :=
  match a, b with
  | [], [] => true
  | x :: a', y :: b' => (x =? y) && str_eqb a' b'
  | _, _ => false
  end.

(** Exceptions that the modelled code raises or catches. *)
Inductive exn :=
| BrokenPipeError
| ConnectionResetError
| BlockingIOError
| AssertionError
| TypeError.

(** The result of a call: a value, or a raised exception. *)
Inductive outcome (A : Type) :=
| Returned (a : A)
| Raised (e : exn).
Arguments Returned {A} a.
Arguments Raised {A} e.

(** [len(b)], and the slices [b[lo:]] and [b[lo:hi]] for [0 <= lo <= hi]. *)
Definition len {A : Type} (b : list A) : Z := Z.of_nat (List.length b).

Definition slice_from {A : Type} (b : list A) (lo : Z) : list A :=
  skipn (Z.to_nat lo) b.

Definition slice {A : Type} (b : list A) (lo hi : Z) : list A :=
  firstn (Z.to_nat (hi - lo)) (skipn (Z.to_nat lo) b).

(** [range(start, stop, step)] for a positive step. *)
Fixpoint range_from (fuel : nat) (start stop step : Z) : list Z :=
  match fuel with
  | O => []
  | S f => if start <? stop
           then start :: range_from f (start + step) stop step
           else []
  end.

Definition range (start stop step : Z) : list Z :=
  range_from (Z.to_nat (stop - start)) start stop step.

(** [s.replace(old, new)] for one-character arguments. *)
Definition replace (s : str) (old new : Z) : str :=
  map (fun c => if c =? old then new else c) s.

(** The line boundaries of [str.splitlines]: LF, CR, VT, FF, FS, GS, RS,
    NEL, LS and PS (CR LF counts once). *)
Definition is_linebreak (c : Z) : bool :=
  (c =? 10) || (c =? 13) || (c =? 11) || (c =? 12) || (c =? 28) ||
  (c =? 29) || (c =? 30) || (c =? 133) || (c =? 8232) || (c =? 8233).

(** [cur] is the current line, reversed. *)
Fixpoint splitlines_aux (cur : str) (s : str) : list str :=
  match s with
  | [] => match cur with [] => [] | _ => [rev cur] end
  | c :: s' =>
      if is_linebreak c then
        rev cur ::
          (if c =? 13 then
             match s' with
             | d :: s'' => if d =? 10 then splitlines_aux [] s''
                           else splitlines_aux [] s'
             | [] => splitlines_aux [] s'
             end
           else splitlines_aux [] s')
      else splitlines_aux (c :: cur) s'
  end.

Definition splitlines (s : str) : list str := splitlines_aux [] s.

(** [s.split(sep)] for a one-character separator: never empty. *)
Fixpoint split_aux (sep : Z) (cur : str) (s : str) : list str :=
  match s with
  | [] => [rev cur]
  | c :: s' => if c =? sep then rev cur :: split_aux sep [] s'
               else split_aux sep (c :: cur) s'
  end.

Definition split (s : str) (sep : Z) : list str := split_aux sep [] s.

(** [s.strip(ch)] for a one-character set. *)
Fixpoint lstrip (s : str) (ch : Z) : str :=
  match s with
  | c :: s' => if c =? ch then lstrip s' ch else s
  | [] => []
  end.

Definition rstrip (s : str) (ch : Z) : str := rev (lstrip (rev s) ch).

Definition strip (s : str) (ch : Z) : str := rstrip (lstrip s ch) ch.

(** *** UTF-8 with [errors='replace'] *)

Definition is_surrogate (c : Z) : bool := (55296 <=? c) && (c <=? 57343).

(** Encoding of one code point; a lone surrogate cannot be encoded and the
    [replace] handler writes [?] in its place. *)
Definition utf8_encode_char (c : Z) : bytes :=
  if c <? 128 then [c]
  else if c <? 2048 then [192 + c / 64; 128 + c mod 64]
  else if is_surrogate c then [63]
  else if c <? 65536 then
    [224 + c / 4096; 128 + (c / 64) mod 64; 128 + c mod 64]
  else
    [240 + c / 262144; 128 + (c / 4096) mod 64;
     128 + (c / 64) mod 64; 128 + c mod 64].

Definition encode (s : str) : bytes := flat_map utf8_encode_char s.

Definition is_cont (b : Z) : bool := (128 <=? b) && (b <=? 191).

Definition REPLACEMENT : Z := 65533.

(** Decoding follows CPython's decoder: an invalid start byte is replaced
    alone; an invalid continuation replaces the bytes accepted so far and
    decoding resumes at the offending byte; a sequence cut by the end of
    the data is replaced as a whole. *)
Fixpoint decode (bs : bytes) : str :=
  match bs with
  | [] => []
  | b0 :: r0 =>
    if b0 <? 128 then b0 :: decode r0
    else if b0 <? 194 then REPLACEMENT :: decode r0
    else if b0 <? 224 then
      match r0 with
      | [] => [REPLACEMENT]
      | b1 :: r1 =>
        if is_cont b1
        then ((b0 mod 32) * 64 + b1 mod 64) :: decode r1
        else REPLACEMENT :: decode r0
      end
    else if b0 <? 240 then
      match r0 with
      | [] => [REPLACEMENT]
      | b1 :: r1 =>
        if negb (is_cont b1)
           || (if b1 <? 160 then b0 =? 224 else b0 =? 237)
        then REPLACEMENT :: decode r0
        else
          match r1 with
          | [] => [REPLACEMENT]
          | b2 :: r2 =>
            if is_cont b2
            then ((b0 mod 16) * 4096 + (b1 mod 64) * 64 + b2 mod 64)
                   :: decode r2
            else REPLACEMENT :: decode r1
          end
      end
    else if b0 <? 245 then
      match r0 with
      | [] => [REPLACEMENT]
      | b1 :: r1 =>
        if negb (is_cont b1)
           || (if b1 <? 144 then b0 =? 240 else b0 =? 244)
        then REPLACEMENT :: decode r0
        else
          match r1 with
          | [] => [REPLACEMENT]
          | b2 :: r2 =>
            if negb (is_cont b2) then REPLACEMENT :: decode r1
            else
              match r2 with
              | [] => [REPLACEMENT]
              | b3 :: r3 =>
                if is_cont b3
                then ((b0 mod 8) * 262144 + (b1 mod 64) * 4096
                      + (b2 mod 64) * 64 + b3 mod 64) :: decode r3
                else REPLACEMENT :: decode r2
              end
          end
      end
    else REPLACEMENT :: decode r0
  end.

(** *** Numbers and [%]-formatting *)

Definition Qltb (a b : Q) : bool := negb (Qle_bool b a).

(** [max(a, b)]: the first argument unless the second is greater. *)
Definition max (a b : Q) : Q := if Qltb a b then b else a.

(** Rounding to the nearest integer, ties to even, as [printf] does. *)
Definition round_half_even (q : Q) : Z :=
  let f := Qfloor q in
  match Qcompare (q - inject_Z f) (1 # 2) with
  | Lt => f
  | Gt => f + 1
  | Eq => if Z.even f then f else f + 1
  end.

Fixpoint uint_str (u : Decimal.uint) : str :=
  match u with
  | Decimal.Nil => []
  | Decimal.D0 u => 48 :: uint_str u
  | Decimal.D1 u => 49 :: uint_str u
  | Decimal.D2 u => 50 :: uint_str u
  | Decimal.D3 u => 51 :: uint_str u
  | Decimal.D4 u => 52 :: uint_str u
  | Decimal.D5 u => 53 :: uint_str u
  | Decimal.D6 u => 54 :: uint_str u
  | Decimal.D7 u => 55 :: uint_str u
  | Decimal.D8 u => 56 :: uint_str u
  | Decimal.D9 u => 57 :: uint_str u
  end.

(** Decimal digits of a natural number given as a non-negative [Z]. *)
Definition digits (n : Z) : str := uint_str (N.to_uint (Z.to_N n)).

Definition zfill (width : nat) (s : str) : str :=
  repeat 48 (width - List.length s) ++ s.

(** ["%1.<prec>f" % q] for a finite value. *)
Definition format_f (prec : nat) (q : Q) : str :=
  let scale := 10 ^ Z.of_nat prec in
  let n := round_half_even (Qabs q * inject_Z scale) in
  (if Qltb q 0 then [45] else [])
    ++ digits (n / scale)
    ++ match prec with
       | O => []
       | _ => 46 :: zfill prec (digits (n mod scale))
       end.

End Py.

Import Py.

(** ** The stream socket the module talks to *)
Module Socket.

(** What the peer does next, as seen by [recv]: it delivers bytes, it stays
    silent for a while, or it resets the connection. When the list is
    exhausted the peer has closed the connection in an orderly way. *)
Inductive rx_event :=
| RxData (b : bytes)
| RxIdle
| RxReset.

Record socket := mkSocket {
  blocking : bool;            (* the mode set by [setblocking] *)
  rx : list rx_event;         (* what the peer will deliver *)
  tx : list bytes;            (* the packets written so far, oldest first *)
  tx_credit : option nat      (* writes that succeed before the pipe breaks *)
}.

Definition setblocking (s : socket) (flag : bool) : socket :=
  mkSocket flag (rx s) (tx s) (tx_credit s).

(** [s.sendall(packet)] *)
Definition sendall (s : socket) (packet : bytes) : outcome unit * socket :=
  match tx_credit s with
  | Some O => (Raised BrokenPipeError, s)
  | Some (S n) =>
      (Returned tt, mkSocket (blocking s) (rx s) (tx s ++ [packet]) (Some n))
  | None =>
      (Returned tt, mkSocket (blocking s) (rx s) (tx s ++ [packet]) None)
  end.

(** [recv] on the pending events: a blocking socket sits through silence, a
    non-blocking one raises; at most [bufsize] bytes are taken and the rest
    stays queued; end of stream reads as the empty bytes object. *)
Fixpoint recv_events (blk : bool) (bufsize : Z) (evs : list rx_event)
  : outcome bytes * list rx_event :=
  match evs with
  | [] => (Returned [], [])
  | RxData b :: evs' =>
      if len b <=? bufsize then (Returned b, evs')
      else (Returned (slice b 0 bufsize),
            RxData (slice_from b bufsize) :: evs')
  | RxIdle :: evs' =>
      if blk then recv_events blk bufsize evs'
      else (Raised BlockingIOError, evs')
  | RxReset :: evs' => (Raised ConnectionResetError, evs')
  end.

(** [s.recv(bufsize)] *)
Definition recv (s : socket) (bufsize : Z) : outcome bytes * socket :=
  let (r, evs) := recv_events (blocking s) bufsize (rx s) in
  (r, mkSocket (blocking s) evs (tx s) (tx_credit s)).

(** A bound on the number of reads that can still return data. *)
Fixpoint pending (evs : list rx_event) : nat :=
  match evs with
  | [] => O
  | RxData b :: evs' => S (List.length b + pending evs')
  | _ :: evs' => S (pending evs')
  end.

End Socket.

Import Socket.

(** ** The engine contract

    The incremental recogniser is an external collaborator. The session
    only relies on its four entry points. *)

(** A segment [(start, end, text)]; a null start says that nothing was
    recognised in this iteration. *)
Definition segment : Type := option Q * option Q * str.

Definition audio := list Q.

Class OnlineASR (E : Type) := {
  asr_init : E -> E;
  asr_insert_audio_chunk : E -> audio -> E;
  asr_process_iter : E -> outcome segment * E;
  asr_finish : E -> segment * E
}.

(** ** faster_whisper/line_packet.py *)
Module LinePacket.

Definition PACKET_SIZE : Z := 65536.
Definition SAMPLING_RATE : Z := 16000.

(** The body of the [for] loop of [send_one_line]: the packet at [offset]. *)
Definition packet_at (data : bytes) (pad_zeros : bool) (offset : Z) : bytes :=
  let bytes_remaining := len data - offset in
  if bytes_remaining <? PACKET_SIZE then
    let padding_length := PACKET_SIZE - bytes_remaining in
    slice_from data offset
      ++ (if pad_zeros then repeat 0 (Z.to_nat padding_length) else [])
  else slice data offset (offset + PACKET_SIZE).

Fixpoint send_packets (sock : socket) (data : bytes) (pad_zeros : bool)
    (offsets : list Z) : outcome unit * socket :=
  match offsets with
  | [] => (Returned tt, sock)
  | offset :: offsets' =>
      match sendall sock (packet_at data pad_zeros offset) with
      | (Returned _, sock') => send_packets sock' data pad_zeros offsets'
      | (Raised e, sock') => (Raised e, sock')
      end
  end.

(** The bytes that [send_one_line] cuts into packets. The value of
    [text.replace('\0', '\n')] is computed and dropped, as in the source:
    [splitlines] is applied to [text] itself. *)
Definition line_data (text : str) (pad_zeros : bool) : bytes :=
  let _ := replace text 0 10 in
  let lines := splitlines text in
  let first_line := match lines with [] => [] | l :: _ => l end in
  encode first_line ++ [10] ++ (if pad_zeros then [0] else []).

Definition send_one_line (sock : socket) (text : str) (pad_zeros : bool)
  : outcome unit * socket :=
  let data := line_data text pad_zeros in
  send_packets sock data pad_zeros (range 0 (len data) PACKET_SIZE).

Definition has_nul (packet : bytes) : bool := existsb (Z.eqb 0) packet.

(** The [while True] loop of [receive_one_line]; [None] when [fuel] runs
    out. *)
Fixpoint receive_packets (fuel : nat) (sock : socket) (data : bytes)
  : option (outcome (option bytes) * socket) :=
  match fuel with
  | O => None
  | S fuel' =>
      match recv sock PACKET_SIZE with
      | (Raised e, sock') => Some (Raised e, sock')
      | (Returned [], sock') => Some (Returned None, sock')
      | (Returned packet, sock') =>
          let data := data ++ packet in
          if has_nul packet then Some (Returned (Some data), sock')
          else receive_packets fuel' sock' data
      end
  end.

Definition receive_one_line (sock : socket)
  : option (outcome (option str) * socket) :=
  match receive_packets (S (pending (rx sock))) sock [] with
  | None => None
  | Some (Raised e, sock') => Some (Raised e, sock')
  | Some (Returned None, sock') => Some (Returned None, sock')
  | Some (Returned (Some data), sock') =>
      let text := strip (decode data) 0 in
      let lines := split text 10 in
      Some (Returned (Some (hd [] lines ++ [10])), sock')
  end.

(** [receive_lines]: [recv] never yields [None], so that branch of the
    source is dead. *)
Definition receive_lines (sock : socket)
  : outcome (option (list str)) * socket :=
  match recv sock PACKET_SIZE with
  | (Raised BlockingIOError, sock') => (Returned (Some []), sock')
  | (Raised e, sock') => (Raised e, sock')
  | (Returned data, sock') =>
      let text := strip (decode data) 0 in
      let lines := split text 10 in
      match lines with
      | [[]] => (Returned None, sock')
      | _ => (Returned (Some lines), sock')
      end
  end.

(** *** class Connection *)

Record Connection := mkConnection {
  conn : socket;
  last_line : str
}.

Definition Connection_PACKET_SIZE : Z := 32000 * 5 * 60.

Definition Connection_init (conn : socket) : Connection :=
  mkConnection (setblocking conn true) [].

Definition send (self : Connection) (line : str)
  : outcome unit * Connection :=
  if str_eqb line (last_line self) then (Returned tt, self)
  else
    match send_one_line (conn self) line false with
    | (Returned _, conn') => (Returned tt, mkConnection conn' line)
    | (Raised e, conn') => (Raised e, mkConnection conn' (last_line self))
    end.

Definition Connection_receive_lines (self : Connection)
  : outcome (option (list str)) * Connection :=
  let (in_line, conn') := receive_lines (conn self) in
  (in_line, mkConnection conn' (last_line self)).

Definition non_blocking_receive_audio (self : Connection)
  : outcome (option bytes) * Connection :=
  match recv (conn self) Connection_PACKET_SIZE with
  | (Returned r, conn') =>
      (Returned (Some r), mkConnection conn' (last_line self))
  | (Raised ConnectionResetError, conn') =>
      (Returned None, mkConnection conn' (last_line self))
  | (Raised e, conn') => (Raised e, mkConnection conn' (last_line self))
  end.

(** *** class ServerProcessor *)

(** RAW little-endian PCM_16 bytes read as float samples (the
    [soundfile.SoundFile] / [librosa.load] pair): one sample for every two
    bytes, scaled by 1/32768; a trailing odd byte makes no frame. *)
Fixpoint load_pcm16 (raw_bytes : bytes) : audio :=
  match raw_bytes with
  | lo :: hi :: rest =>
      let v := lo + 256 * hi in
      ((if v <? 32768 then v else v - 65536) # 32768) :: load_pcm16 rest
  | _ => []
  end.

(** [sum(len(x) for x in out)] *)
Definition total_len (out : list audio) : Z :=
  fold_right Z.add 0 (map len out).

(** The [while] loop of [receive_audio_chunk]; [None] when [fuel] runs
    out. *)
Fixpoint accumulate (fuel : nat) (c : Connection) (minlimit : Q)
    (out : list audio) : option (outcome (list audio) * Connection) :=
  match fuel with
  | O => None
  | S fuel' =>
      if Qltb (inject_Z (total_len out)) minlimit then
        match non_blocking_receive_audio c with
        | (Raised e, c') => Some (Raised e, c')
        | (Returned None, c') => Some (Returned out, c')
        | (Returned (Some []), c') => Some (Returned out, c')
        | (Returned (Some raw_bytes), c') =>
            accumulate fuel' c' minlimit (out ++ [load_pcm16 raw_bytes])
        end
      else Some (Returned out, c)
  end.

Section Session.

Context {E : Type} {engine : OnlineASR E}.

Record ServerProcessor := mkServerProcessor {
  connection : Connection;
  online_asr_proc : E;
  min_chunk : Q;
  last_end : option Q;
  is_first : bool;
  stderr : list str          (* the lines this session printed on stderr *)
}.

Definition ServerProcessor_init (c : Connection) (online_asr_proc : E)
    (min_chunk : Q) : ServerProcessor :=
  mkServerProcessor c online_asr_proc min_chunk None true [].

Definition set_connection (self : ServerProcessor) (c : Connection) :=
  mkServerProcessor c (online_asr_proc self) (min_chunk self)
    (last_end self) (is_first self) (stderr self).

Definition set_online_asr_proc (self : ServerProcessor) (e : E) :=
  mkServerProcessor (connection self) e (min_chunk self)
    (last_end self) (is_first self) (stderr self).

Definition set_last_end (self : ServerProcessor) (v : option Q) :=
  mkServerProcessor (connection self) (online_asr_proc self) (min_chunk self)
    v (is_first self) (stderr self).

Definition set_is_first (self : ServerProcessor) (v : bool) :=
  mkServerProcessor (connection self) (online_asr_proc self) (min_chunk self)
    (last_end self) v (stderr self).

Definition print_stderr (self : ServerProcessor) (line : str) :=
  mkServerProcessor (connection self) (online_asr_proc self) (min_chunk self)
    (last_end self) (is_first self) (stderr self ++ [line]).

Definition minlimit_of (self : ServerProcessor) : Q :=
  min_chunk self * inject_Z SAMPLING_RATE.

Definition receive_audio_chunk (self : ServerProcessor)
  : option (outcome (option audio) * ServerProcessor) :=
  let minlimit := minlimit_of self in
  let c := connection self in
  match accumulate (S (pending (rx (conn c)))) c minlimit [] with
  | None => None
  | Some (Raised e, c') => Some (Raised e, set_connection self c')
  | Some (Returned out, c') =>
      let self := set_connection self c' in
      match out with
      | [] => Some (Returned None, self)
      | _ =>
          let conc := List.concat out in
          if is_first self && Qltb (inject_Z (len conc)) minlimit
          then Some (Returned None, self)
          else Some (Returned (Some (List.concat out)), set_is_first self false)
      end
  end.

(** ["%1.0f %1.0f %s" % (beg, end, text)] *)
Definition transcript_line (beg end_ : Q) (text : str) : str :=
  format_f 0 beg ++ [32] ++ format_f 0 end_ ++ [32] ++ text.

Definition format_output_transcript (self : ServerProcessor) (o : segment)
  : outcome (option str) * ServerProcessor :=
  match o with
  | (Some o0, o1, o2) =>
      match o1 with
      | None => (Raised TypeError, self)
      | Some o1 =>
          let beg := (o0 * 1000)%Q in
          let end_ := (o1 * 1000)%Q in
          let beg := match last_end self with
                     | Some last_end => max beg last_end
                     | None => beg
                     end in
          let self := set_last_end self (Some end_) in
          let self := print_stderr self (transcript_line beg end_ o2) in
          (Returned (Some (transcript_line beg end_ o2)), self)
      end
  | (None, _, _) => (Returned None, self)
  end.

Definition send_result (self : ServerProcessor) (o : segment)
  : outcome unit * ServerProcessor :=
  match format_output_transcript self o with
  | (Raised e, self) => (Raised e, self)
  | (Returned None, self) => (Returned tt, self)
  | (Returned (Some msg), self) =>
      let (r, c') := send (connection self) msg in
      (r, set_connection self c')
  end.

(** The [while True] loop of [process]; [None] when [fuel] runs out. A
    broken pipe is logged and ends the loop; any other exception leaves
    [process]. Nothing follows the loop. *)
Fixpoint process_loop (fuel : nat) (self : ServerProcessor)
  : option (outcome unit * ServerProcessor) :=
  match fuel with
  | O => None
  | S fuel' =>
      match receive_audio_chunk self with
      | None => None
      | Some (Raised e, self) => Some (Raised e, self)
      | Some (Returned None, self) => Some (Returned tt, self)
      | Some (Returned (Some a), self) =>
          let self :=
            set_online_asr_proc self
              (asr_insert_audio_chunk (online_asr_proc self) a) in
          match asr_process_iter (online_asr_proc self) with
          | (Raised e, e') => Some (Raised e, set_online_asr_proc self e')
          | (Returned o, e') =>
              let self := set_online_asr_proc self e' in
              match send_result self o with
              | (Raised BrokenPipeError, self) => Some (Returned tt, self)
              | (Raised e, self) => Some (Raised e, self)
              | (Returned _, self) => process_loop fuel' self
              end
          end
      end
  end.

Definition process (self : ServerProcessor)
  : option (outcome unit * ServerProcessor) :=
  let self :=
    set_online_asr_proc self (asr_init (online_asr_proc self)) in
  process_loop (S (pending (rx (conn (connection self))))) self.

End Session.

Arguments ServerProcessor E : clear implicits.

End LinePacket.

(** ** faster_whisper/whisper_online.py *)
Module WhisperOnline.

Inductive TimingMode := Offline | ComputationUnaware | Live.

(** What the driver has written, and how often it has read the clock. *)
Record world := mkWorld {
  stdout : list str;
  logfile : list str;
  ticks : nat
}.

Definition SAMPLING_RATE : Z := 16000.

(** [int(x)]: truncation towards zero. *)
Definition int (x : Q) : Z := Z.quot (Qnum x) (Zpos (Qden x)).

(** [load_audio_chunk(fname, beg, end)] on the decoded file. *)
Definition load_audio_chunk (file : audio) (beg end_ : Q) : audio :=
  let beg_s := int (beg * 16000) in
  let end_s := int (end_ * 16000) in
  slice file beg_s end_s.

Section Driver.

Context {E : Type} {engine : OnlineASR E}.

(** [clock n] is what the [n]-th call of [time.time()] returns. *)
Variable clock : nat -> Q.

Definition time (w : world) : Q * world :=
  (clock (ticks w), mkWorld (stdout w) (logfile w) (S (ticks w))).

Definition print (w : world) (line : str) : world :=
  mkWorld (stdout w ++ [line]) (logfile w) (ticks w).

Definition print_logfile (w : world) (line : str) : world :=
  mkWorld (stdout w) (logfile w ++ [line]) (ticks w).

(** ["%1.4f %1.0f %1.0f %s" % (now * 1000, o[0] * 1000, o[1] * 1000, o[2])] *)
Definition transcript_line (now o0 o1 : Q) (o2 : str) : str :=
  format_f 4 (now * 1000) ++ [32] ++ format_f 0 (o0 * 1000) ++ [32]
    ++ format_f 0 (o1 * 1000) ++ [32] ++ o2.

(** [output_transcript(o, now)]; [start] is the global set by the main
    program. With [now] absent the clock is read and the function returns
    at once. *)
Definition output_transcript (start : Q) (w : world) (o : segment)
    (now : option Q) : outcome (option str) * world :=
  match now with
  | None =>
      let (t, w) := time w in
      let now := (t - start)%Q in
      (Returned None, w)
  | Some now =>
      match o with
      | (Some o0, o1, o2) =>
          match o1 with
          | None => (Raised TypeError, w)
          | Some o1 =>
              let w := print_logfile w (transcript_line now o0 o1 o2) in
              let w := print w (transcript_line now o0 o1 o2) in
              (Returned (Some (transcript_line now o0 o1 o2)), w)
          end
      | (None, _, _) => (Returned None, w)
      end
  end.

(** One [insert_audio_chunk] / [process_iter] / [output_transcript] round,
    shared by the three branches: an [AssertionError] of the engine is
    logged and the output skipped. *)
Definition iteration (start : Q) (w : world) (online : E) (a : audio)
    (now : option Q) : outcome unit * (world * E) :=
  let online := asr_insert_audio_chunk online a in
  match asr_process_iter online with
  | (Raised AssertionError, online) => (Returned tt, (w, online))
  | (Raised e, online) => (Raised e, (w, online))
  | (Returned o, online) =>
      match output_transcript start w o now with
      | (Raised e, w) => (Raised e, (w, online))
      | (Returned _, w) => (Returned tt, (w, online))
      end
  end.

(** The loop of the computation-unaware branch; [None] when [fuel] runs
    out. It returns with the loop over. *)
Fixpoint comp_unaware_loop (fuel : nat) (file : audio) (duration min_chunk : Q)
    (start : Q) (w : world) (online : E) (beg end_ : Q)
  : option (outcome unit * (world * E)) :=
  match fuel with
  | O => None
  | S fuel' =>
      let a := load_audio_chunk file beg end_ in
      match iteration start w online a (Some end_) with
      | (Raised e, st) => Some (Raised e, st)
      | (Returned _, (w, online)) =>
          if Qle_bool duration end_ then Some (Returned tt, (w, online))
          else
            let beg := end_ in
            let end_ := if Qltb duration (end_ + min_chunk)
                        then duration else (end_ + min_chunk)%Q in
            comp_unaware_loop fuel' file duration min_chunk start w online
              beg end_
      end
  end.

(** The loop of the live branch. *)
Fixpoint live_loop (fuel : nat) (file : audio) (duration min_chunk : Q)
    (start : Q) (w : world) (online : E) (beg end_ : Q)
  : option (outcome unit * (world * E)) :=
  match fuel with
  | O => None
  | S fuel' =>
      let (t, w) := time w in
      let now := (t - start)%Q in
      (* [time.sleep(min_chunk + end - now)] when [now < end + min_chunk] *)
      let (t, w) := time w in
      let end_ := (t - start)%Q in
      let a := load_audio_chunk file beg end_ in
      let beg := end_ in
      match iteration start w online a None with
      | (Raised e, st) => Some (Raised e, st)
      | (Returned _, (w, online)) =>
          let (t, w) := time w in
          let now := (t - start)%Q in
          if Qle_bool duration end_ then Some (Returned tt, (w, online))
          else live_loop fuel' file duration min_chunk start w online beg end_
      end
  end.

(** The main program after argument parsing and model loading, for the
    mode selected by [--offline] / [--comp_unaware]. *)
Definition main (fuel : nat) (mode : TimingMode) (file : audio)
    (start_at min_chunk : Q) (w : world) (online : E)
  : option (outcome unit * (world * E)) :=
  let duration := (inject_Z (len file) / inject_Z SAMPLING_RATE)%Q in
  let beg := start_at in
  let (t, w) := time w in
  let start := (t - beg)%Q in
  let branch :=
    match mode with
    | Offline =>
        match iteration start w online file None with
        | (Raised e, st) => Some (Raised e, st)
        | (Returned _, st) => Some (Returned None, st)
        end
    | ComputationUnaware =>
        let end_ := (beg + min_chunk)%Q in
        match comp_unaware_loop fuel file duration min_chunk start w online
                beg end_ with
        | None => None
        | Some (Raised e, st) => Some (Raised e, st)
        | Some (Returned _, st) => Some (Returned (Some duration), st)
        end
    | Live =>
        match live_loop fuel file duration min_chunk start w online beg 0 with
        | None => None
        | Some (Raised e, st) => Some (Raised e, st)
        | Some (Returned _, st) => Some (Returned None, st)
        end
    end in
  match branch with
  | None => None
  | Some (Raised e, st) => Some (Raised e, st)
  | Some (Returned now, (w, online)) =>
      let (o, online) := asr_finish online in
      match output_transcript start w o now with
      | (Raised e, w) => Some (Raised e, (w, online))
      | (Returned _, w) => Some (Returned tt, (w, online))
      end
  end.

End Driver.

End WhisperOnline.

(** ** faster_whisper/tools/modelDownload.py *)
Module ModelDownload.

Definition units : list str := [lit "B"; lit "KB"; lit "MB"; lit "GB"].

(** The [for] loop of [format_bytes] over the units left. *)
Fixpoint format_bytes_from (units : list str) (bytes_value : Q) : str :=
  match units with
  | [] => format_f 2 bytes_value ++ lit " TB"
  | unit :: units =>
      if Qltb bytes_value 1024
      then format_f 2 bytes_value ++ [32] ++ unit
      else format_bytes_from units (bytes_value / 1024)
  end.

Definition format_bytes (bytes_value : Q) : str :=
  format_bytes_from units bytes_value.

End ModelDownload.

(** ** faster_whisper/whisper_online_fastapiServer.py *)
Module FastapiServer.

Section Handler.

Context {E : Type} {engine : OnlineASR E}.

(** [read_root(fileId)] on the decoded file of that id, for a chunk size
    that is not negative. [online] is the engine of the module, shared by
    all requests. *)
Definition read_root (file : audio) (min_chunk : Q) (online : E)
  : outcome str * E :=
  let audio := WhisperOnline.load_audio_chunk file 0 min_chunk in
  let online := asr_insert_audio_chunk online audio in
  match asr_process_iter online with
  | (Raised e, online) => (Raised e, online)
  | (Returned (Some text0, Some text1, text2), online) =>
      (Returned (format_f 0 (text0 * 1000) ++ [32]
                 ++ format_f 0 (text1 * 1000) ++ [32] ++ text2), online)
  | (Returned _, online) => (Raised TypeError, online)
  end.

End Handler.

End FastapiServer.

(** * Vocabulary of the properties *)

Import LinePacket.

(** The packets [send_one_line] writes for [text], in order. *)
Definition packets_of (text : str) (pad_zeros : bool) : list bytes :=
  let data := line_data text pad_zeros in
  map (packet_at data pad_zeros) (range 0 (len data) PACKET_SIZE).

(** A socket on which nothing has happened yet and that never breaks. *)
Definition idle_socket : socket := mkSocket false [] [] None.

(** The first line of [text] as [send_one_line] takes it. *)
Definition first_line (text : str) : str := hd [] (splitlines text).

(** The characters before the first line boundary. *)
Fixpoint until_linebreak (s : str) : str :=
  match s with
  | [] => []
  | c :: s' => if is_linebreak c then [] else c :: until_linebreak s'
  end.

(** Unicode code points; the lone surrogates among them have no UTF-8
    form and come out of the lossy encoding as [?]. *)
Definition code_point (c : Z) : Prop := 0 <= c <= 1114111.

Definition lossy_char (c : Z) : Z := if is_surrogate c then 63 else c.

Definition lossy (s : str) : str := map lossy_char s.

(** The line the design document expects back from a round trip: the
    first line of the text once NUL counts as a line terminator, up to the
    lossy substitution. *)
Definition expected_line (L : str) : str :=
  lossy (first_line (replace L 0 10)).

(** The socket at the other end of [s]: it will be delivered the packets
    written to [s], one per read, and then the end of the stream. *)
Definition peer_of (s : socket) : socket :=
  mkSocket true (map RxData (tx s)) [] None.

(** The packet round trip as the design document words it. *)
Definition round_trip (pad_zeros : bool) (L : str) : Prop :=
  exists sock',
    receive_one_line (peer_of (snd (send_one_line idle_socket L pad_zeros)))
    = Some (Returned (Some (expected_line L ++ [10])), sock').

(** Everything written on the connection so far. *)
Definition wire (c : Connection) : list bytes := tx (conn c).

(** Dedup idempotence as the design document words it: the first of two
    successive [send(L)] puts [L] on the wire and records it, the second
    changes nothing. *)
Definition sent_once (c : Connection) (L : str) : Prop :=
  exists c1,
    send c L = (Returned tt, c1)
    /\ wire c1 = wire c ++ packets_of L false
    /\ last_line c1 = L
    /\ send c1 L = (Returned tt, c1).

(** Timestamp stitching as the design document words it: times go to
    milliseconds, the start is clamped to the last emitted end when there
    is one, and the end becomes the last emitted end. *)
Fixpoint stitched (last_emitted_end : option Q) (segs : list (Q * Q * str))
  : list (Q * Q * str) :=
  match segs with
  | [] => []
  | (s, e, t) :: segs' =>
      let start := match last_emitted_end with
                   | Some l => max (s * 1000) l
                   | None => (s * 1000)%Q
                   end in
      (start, (e * 1000)%Q, t) :: stitched (Some (e * 1000)%Q) segs'
  end.

(** Each interval starts no earlier than the previous one ended; [prev] is
    the end emitted before the first interval, if any. *)
Fixpoint non_overlapping (prev : option Q) (l : list (Q * Q * str)) : Prop :=
  match l with
  | [] => True
  | (b, e, _) :: l' =>
      match prev with Some p => (p <= b)%Q | None => True end
      /\ non_overlapping (Some e) l'
  end.

(** The same on the integers that ["%1.0f"] prints. *)
Fixpoint non_overlapping_printed (prev : option Q) (l : list (Q * Q * str))
  : Prop :=
  match l with
  | [] => True
  | (b, e, _) :: l' =>
      match prev with
      | Some p => round_half_even p <= round_half_even b
      | None => True
      end
      /\ non_overlapping_printed (Some e) l'
  end.

(** The end stored after emitting [l], starting from [prev]. *)
Fixpoint final_end (prev : option Q) (l : list (Q * Q * str)) : option Q :=
  match l with
  | [] => prev
  | (_, e, _) :: l' => final_end (Some e) l'
  end.

(** The audio bytes still to be delivered. *)
Fixpoint bytes_of (evs : list rx_event) : bytes :=
  match evs with
  | [] => []
  | RxData b :: evs' => b ++ bytes_of evs'
  | _ :: evs' => bytes_of evs'
  end.

(** [closes evs rest]: the next read on [evs] yields nothing, because the
    peer has closed the connection or resets it, and leaves [rest]. *)
Inductive closes : list rx_event -> list rx_event -> Prop :=
| closes_eof : closes [] []
| closes_reset (rest : list rx_event) : closes (RxReset :: rest) rest.

(** A chunk that one [non_blocking_receive_audio] returns whole. *)
Definition whole_chunk (b : bytes) : Prop :=
  b <> [] /\ len b <= Connection_PACKET_SIZE.

(** The connection with other pending events. *)
Definition with_rx (c : Connection) (evs : list rx_event) : Connection :=
  mkConnection
    (mkSocket (blocking (conn c)) evs (tx (conn c)) (tx_credit (conn c)))
    (last_line c).

Section SessionVocabulary.

Context {E : Type} {engine : OnlineASR E}.

(** The emission path applied to a sequence of engine segments that carry
    both times: the results in order, and the session afterwards. *)
Fixpoint emit_all (self : ServerProcessor E) (segs : list (Q * Q * str))
  : list (outcome (option str)) * ServerProcessor E :=
  match segs with
  | [] => ([], self)
  | (s, e, t) :: segs' =>
      let (r, self) := format_output_transcript self (Some s, Some e, t) in
      let (rs, self) := emit_all self segs' in
      (r :: rs, self)
  end.

(** What the peer of the session will still deliver. *)
Definition rx_of (self : ServerProcessor E) : list rx_event :=
  rx (conn (connection self)).

End SessionVocabulary.

(** What the design document asks of [receiveAudioNonBlocking] when the
    peer has closed the connection. *)
Definition null_when_closed (c : Connection) : Prop :=
  rx (conn c) = [] -> fst (non_blocking_receive_audio c) = Returned None.

(** An engine that only records how it is called. It recognises nothing
    in [process_iter] and hands out what it has buffered in [finish]. *)
Inductive call :=
| CallInit
| CallInsert (a : audio)
| CallProcessIter
| CallFinish.

#[export] Instance recording_engine : OnlineASR (list call) := {
  asr_init log := log ++ [CallInit];
  asr_insert_audio_chunk log a := log ++ [CallInsert a];
  asr_process_iter log := (Returned (None, None, []), log ++ [CallProcessIter]);
  asr_finish log := ((Some 0%Q, Some 1%Q, lit "the end"), log ++ [CallFinish])
}.

(** A session on the recording engine whose peer sends four samples, the
    whole of a first chunk of a quarter of a millisecond, and closes. *)
Definition short_session : ServerProcessor (list call) :=
  ServerProcessor_init
    (Connection_init
       (mkSocket false [RxData [0; 64; 0; 192; 0; 64; 0; 192]] [] None))
    [] (1 # 4000).

(** How often the engine was asked to flush. *)
Definition flushes (log : list call) : nat :=
  List.length
    (filter (fun c => match c with CallFinish => true | _ => false end) log).

(** An engine that plays a script: every [process_iter] and [finish]
    hands out the next segment of the list. *)
#[export] Instance scripted_engine : OnlineASR (list segment) := {
  asr_init script := script;
  asr_insert_audio_chunk script a := script;
  asr_process_iter script :=
    match script with
    | o :: script' => (Returned o, script')
    | [] => (Returned (None, None, []), [])
    end;
  asr_finish script :=
    match script with
    | o :: script' => (o, script')
    | [] => ((None, None, []), [])
    end
}.

(** Two recognised segments, a clock that advances one second per reading,
    and a driver that has written nothing yet. *)
Definition two_segments : list segment :=
  [(Some 0%Q, Some (172 # 100)%Q, lit "Takhle to je");
   (Some (172 # 100)%Q, Some (5 # 2)%Q, lit "dobre")].

Definition seconds (n : nat) : Q := inject_Z (Z.of_nat n).

Definition fresh_world : WhisperOnline.world := WhisperOnline.mkWorld [] [] 0.

(** ** Vocabulary of the further properties *)

(** An event that delivers at least one byte. *)
Definition delivers_data (ev : rx_event) : Prop :=
  exists b, ev = RxData b /\ b <> [].

(** Successive [send]s on one connection: the results in order, and the
    connection afterwards. *)
Fixpoint send_all (c : Connection) (lines : list str)
  : list (outcome unit) * Connection :=
  match lines with
  | [] => ([], c)
  | line :: lines' =>
      let (r, c) := send c line in
      let (rs, c) := send_all c lines' in
      (r :: rs, c)
  end.

(** [lines] without the entries that repeat their predecessor, [prev]
    being the predecessor of the first. *)
Fixpoint squash (prev : str) (lines : list str) : list str :=
  match lines with
  | [] => []
  | line :: lines' =>
      if str_eqb line prev then squash prev lines'
      else line :: squash line lines'
  end.

(** Engine segments that are already in order: each starts no earlier, in
    milliseconds, than the one before it ended; [prev] is the end stored
    before the first. *)
Fixpoint in_order (prev : option Q) (segs : list (Q * Q * str)) : Prop :=
  match segs with
  | [] => True
  | (s, e, _) :: segs' =>
      match prev with Some p => (p <= s * 1000)%Q | None => True end
      /\ in_order (Some (e * 1000)%Q) segs'
  end.

(** An engine whose [process_iter] never raises and never hands out a
    start without an end. *)
Definition dependable {E : Type} (engine : OnlineASR E) : Prop :=
  forall e : E,
    exists o e',
      asr_process_iter e = (Returned o, e')
      /\ (fst (fst o) = None \/ snd (fst o) <> None).

(** The calls one chunk costs the engine. *)
Definition round_of (a : audio) : list call := [CallInsert a; CallProcessIter].

(** The audio an engine that records its calls was given, in order. *)
Definition inserted (log : list call) : audio :=
  flat_map (fun c => match c with CallInsert a => a | _ => [] end) log.

(** [w'] is [w] after the same lines went to stdout and to the log
    file. *)
Definition mirrored (w w' : WhisperOnline.world) : Prop :=
  exists lines,
    WhisperOnline.stdout w' = WhisperOnline.stdout w ++ lines
    /\ WhisperOnline.logfile w' = WhisperOnline.logfile w ++ lines.

(** A clock that never runs backwards. *)
Definition monotone (clock : nat -> Q) : Prop :=
  forall m n, (m <= n)%nat -> (clock m <= clock n)%Q.

(** * Properties *)

(** ** Strings *)

Lemma str_eqb_refl (a : str) : str_eqb a a = true.
Proof.
  induction a as [|x a IH]; simpl; [reflexivity|].
  now rewrite Z.eqb_refl, IH.
Qed.

Lemma str_eqb_eq (a b : str) : str_eqb a b = true <-> a = b.
Proof.
  split; [|intros ->; apply str_eqb_refl].
  revert b; induction a as [|x a IH]; intros [|y b]; simpl; try discriminate.
  - reflexivity.
  - intros H. apply andb_true_iff in H as [Hx Hr].
    apply Z.eqb_eq in Hx. apply IH in Hr. now subst.
Qed.

Lemma str_eqb_neq (a b : str) : str_eqb a b = false <-> a <> b.
Proof.
  split.
  - intros H ->. rewrite str_eqb_refl in H. discriminate.
  - intros H. destruct (str_eqb a b) eqn:Heq; [|reflexivity].
    apply str_eqb_eq in Heq. contradiction.
Qed.

(** ** The wire image of a line *)

Lemma send_packets_returned sock data pad offsets sock' :
  send_packets sock data pad offsets = (Returned tt, sock') ->
  tx sock' = tx sock ++ map (packet_at data pad) offsets
  /\ rx sock' = rx sock /\ blocking sock' = blocking sock.
Proof.
  revert sock. induction offsets as [|o os IH]; intros sock; simpl.
  - intros [= <-]. now rewrite app_nil_r.
  - unfold sendall. destruct (tx_credit sock) as [[|n]|]; try discriminate.
    + intros H. apply IH in H as (Ht & Hr & Hb). simpl in *.
      now rewrite Ht, <- app_assoc.
    + intros H. apply IH in H as (Ht & Hr & Hb). simpl in *.
      now rewrite Ht, <- app_assoc.
Qed.

Lemma send_packets_unlimited sock data pad offsets :
  tx_credit sock = None ->
  send_packets sock data pad offsets
  = (Returned tt,
     mkSocket (blocking sock) (rx sock)
       (tx sock ++ map (packet_at data pad) offsets) None).
Proof.
  revert sock. induction offsets as [|o os IH]; intros sock Hc; simpl.
  - rewrite app_nil_r, <- Hc. now destruct sock.
  - unfold sendall. rewrite Hc. rewrite IH by reflexivity. simpl.
    now rewrite <- app_assoc.
Qed.

Lemma send_one_line_returned sock text pad sock' :
  send_one_line sock text pad = (Returned tt, sock') ->
  tx sock' = tx sock ++ packets_of text pad.
Proof.
  unfold send_one_line, packets_of. intros H.
  now apply send_packets_returned in H as (Ht & _).
Qed.

(** The first offset is always produced: a line is at least its newline. *)
Lemma line_data_nonempty text pad : 0 < len (line_data text pad).
Proof.
  unfold line_data, len. rewrite !length_app. simpl. lia.
Qed.

Lemma packets_of_nonempty text pad : packets_of text pad <> [].
Proof.
  unfold packets_of. pose proof (line_data_nonempty text pad) as H.
  unfold range. rewrite Z.sub_0_r.
  destruct (Z.to_nat (len (line_data text pad))) eqn:Hn; [lia|].
  simpl. destruct (Z.ltb_spec 0 (len (line_data text pad))); [|lia].
  discriminate.
Qed.

(** ** Connection: duplicate suppression *)

(** C10. A new connection records the empty string as its last line, so a
    first [send("")] returns without writing anything and without changing
    the connection. *)
Theorem fresh_connection_drops_empty_line (sock : socket) :
  last_line (Connection_init sock) = []
  /\ send (Connection_init sock) [] = (Returned tt, Connection_init sock)
  /\ wire (snd (send (Connection_init sock) [])) = tx sock.
Proof.
  repeat split.
Qed.

(** C4, as the design document states it, fails on a fresh connection with
    the empty line: neither call writes anything, while one transmission of
    the empty line is the packet holding a newline. *)
Lemma sent_once_fails_on_recorded_line :
  ~ sent_once (Connection_init idle_socket) [].
Proof.
  intros (c1 & Hsend & Hwire & _).
  cbn in Hsend. injection Hsend as <-.
  vm_compute in Hwire. discriminate.
Qed.

(** C4, amended. When the first [send(L)] returns normally, the second one
    changes nothing; the pair writes the packets of [L] exactly once if [L]
    differs from the line recorded before the first call, and writes
    nothing if [L] is that line. *)
Theorem send_twice_transmits_at_most_once (c : Connection) (L : str)
    (c1 : Connection) :
  send c L = (Returned tt, c1) ->
  send c1 L = (Returned tt, c1)
  /\ last_line c1 = L
  /\ (L <> last_line c ->
      wire c1 = wire c ++ packets_of L false /\ packets_of L false <> [])
  /\ (L = last_line c -> c1 = c).
Proof.
  unfold send at 1.
  destruct (str_eqb L (last_line c)) eqn:Heq.
  - intros [= <-]. apply str_eqb_eq in Heq.
    split; [|split; [|split]].
    + unfold send. rewrite Heq, str_eqb_refl. reflexivity.
    + now symmetry.
    + intros Hne. contradiction.
    + reflexivity.
  - destruct (send_one_line (conn c) L false) as [[[]|e] s'] eqn:Hs;
      [|discriminate].
    intros [= <-]. apply str_eqb_neq in Heq.
    split; [|split; [|split]].
    + unfold send. simpl. now rewrite str_eqb_refl.
    + reflexivity.
    + intros _. split; [|apply packets_of_nonempty].
      unfold wire. simpl. now apply send_one_line_returned.
    + intros He. contradiction.
Qed.

Lemma send_twice_transmits_at_most_once_witness :
  let c := Connection_init idle_socket in
  let c1 := mkConnection (mkSocket true [] [[104; 105; 10]] None) [104; 105] in
  send c1 [104; 105] = (Returned tt, c1)
  /\ wire c1 = [[104; 105; 10]].
Proof.
  intros c c1.
  destruct (send_twice_transmits_at_most_once c [104; 105] c1) as (H2 & _ & Hw & _).
  - vm_compute. reflexivity.
  - split; [exact H2|].
    destruct Hw as [Hw _]; [discriminate|].
    rewrite Hw. vm_compute. reflexivity.
Defined.

(** ** Order facts about the modelled numbers *)

Lemma Qltb_lt (a b : Q) : Qltb a b = true <-> (a < b)%Q.
Proof.
  unfold Qltb. rewrite negb_true_iff.
  split.
  - intros H. apply Qnot_le_lt. intros Hle.
    apply Qle_bool_iff in Hle. congruence.
  - intros H. destruct (Qle_bool b a) eqn:Hb; [|reflexivity].
    apply Qle_bool_iff in Hb. lra.
Qed.

Lemma Qltb_ge (a b : Q) : Qltb a b = false <-> (b <= a)%Q.
Proof.
  unfold Qltb. rewrite negb_false_iff. apply Qle_bool_iff.
Qed.

Lemma max_ge_l (a b : Q) : (a <= max a b)%Q.
Proof.
  unfold max. destruct (Qltb a b) eqn:H.
  - apply Qltb_lt in H. lra.
  - lra.
Qed.

Lemma max_ge_r (a b : Q) : (b <= max a b)%Q.
Proof.
  unfold max. destruct (Qltb a b) eqn:H.
  - lra.
  - now apply Qltb_ge in H.
Qed.

Lemma round_half_even_bounds (q : Q) :
  Qfloor q <= round_half_even q <= Qfloor q + 1.
Proof.
  unfold round_half_even.
  destruct (Qcompare _ _); [destruct (Z.even _)| |]; lia.
Qed.

(** Rounding keeps the order, so what holds of the emitted times holds of
    the integers printed for them. *)
Lemma round_half_even_monotone (p q : Q) :
  (p <= q)%Q -> round_half_even p <= round_half_even q.
Proof.
  intros Hpq.
  pose proof (Qfloor_resp_le _ _ Hpq) as Hf.
  pose proof (round_half_even_bounds p) as Hp.
  pose proof (round_half_even_bounds q) as Hq.
  destruct (Z.eq_dec (Qfloor p) (Qfloor q)) as [Heq|Hne]; [|lia].
  unfold round_half_even in *. rewrite Heq in *.
  destruct (Qcompare_spec (p - inject_Z (Qfloor q)) (1 # 2)) as [H1|H1|H1];
    destruct (Qcompare_spec (q - inject_Z (Qfloor q)) (1 # 2)) as [H2|H2|H2];
    try lia; lra.
Qed.

(** ** Session: timestamp stitching *)

Section SessionProperties.

Context {E : Type} {engine : OnlineASR E}.

Lemma format_output_transcript_timed (self : ServerProcessor E)
    (s e : Q) (t : str) :
  let beg := match last_end self with
             | Some l => max (s * 1000) l
             | None => (s * 1000)%Q
             end in
  format_output_transcript self (Some s, Some e, t)
  = (Returned (Some (LinePacket.transcript_line beg (e * 1000) t)),
     print_stderr (set_last_end self (Some (e * 1000)%Q))
       (LinePacket.transcript_line beg (e * 1000) t)).
Proof. reflexivity. Qed.

Lemma stitched_non_overlapping (prev : option Q) (segs : list (Q * Q * str)) :
  non_overlapping prev (stitched prev segs)
  /\ non_overlapping_printed prev (stitched prev segs).
Proof.
  revert prev. induction segs as [|[[s e] t] segs IH]; intros prev; simpl.
  - split; exact I.
  - destruct (IH (Some (e * 1000)%Q)) as [IH1 IH2].
    destruct prev as [l|]; repeat split; auto.
    + apply max_ge_r.
    + apply round_half_even_monotone, max_ge_r.
Qed.

(** C1. Whatever times the engine reports, feeding a sequence of timed
    segments through [format_output_transcript] emits exactly the lines of
    the stitched sequence: each start is the maximum of the engine's start
    and the end emitted before it, the stored end becomes the segment's
    end, and so every emitted start is at least the end emitted just
    before it, also as printed. *)
Theorem stitching_is_monotonic (self : ServerProcessor E)
    (segs : list (Q * Q * str)) :
  let emitted := stitched (last_end self) segs in
  fst (emit_all self segs)
  = map (fun i =>
           Returned (Some (LinePacket.transcript_line
                             (fst (fst i)) (snd (fst i)) (snd i))))
        emitted
  /\ last_end (snd (emit_all self segs)) = final_end (last_end self) emitted
  /\ non_overlapping (last_end self) emitted
  /\ non_overlapping_printed (last_end self) emitted.
Proof.
  cbv zeta.
  split; [|split; [|apply stitched_non_overlapping]].
  - revert self. induction segs as [|[[s e] t] segs IH]; intros self.
    + reflexivity.
    + cbn [emit_all]. rewrite format_output_transcript_timed. cbv zeta.
      specialize (IH (print_stderr (set_last_end self (Some (e * 1000)%Q))
        (LinePacket.transcript_line
           match last_end self with
           | Some l => max (s * 1000) l
           | None => (s * 1000)%Q
           end (e * 1000) t))).
      destruct (emit_all _ segs) as [rs self'].
      cbn [fst] in *. cbn [stitched map fst snd]. f_equal. exact IH.
  - revert self. induction segs as [|[[s e] t] segs IH]; intros self.
    + reflexivity.
    + cbn [emit_all]. rewrite format_output_transcript_timed. cbv zeta.
      specialize (IH (print_stderr (set_last_end self (Some (e * 1000)%Q))
        (LinePacket.transcript_line
           match last_end self with
           | Some l => max (s * 1000) l
           | None => (s * 1000)%Q
           end (e * 1000) t))).
      destruct (emit_all _ segs) as [rs self'].
      cbn [snd] in *. cbn [stitched final_end]. exact IH.
Qed.

(** C8. A segment with a null start makes [format_output_transcript]
    return null and leaves the whole session as it was (stored end,
    first-chunk flag, connection, stderr); [send_result] then sends
    nothing. A call that changes the stored end was given a segment with a
    start, and stores that segment's end. *)
Theorem null_start_changes_nothing (self : ServerProcessor E)
    (o : segment) :
  (forall o1 o2,
      format_output_transcript self (None, o1, o2) = (Returned None, self)
      /\ send_result self (None, o1, o2) = (Returned tt, self))
  /\ (last_end (snd (format_output_transcript self o)) = last_end self
      \/ exists s e t,
           o = (Some s, Some e, t)
           /\ last_end (snd (format_output_transcript self o))
              = Some (e * 1000)%Q).
Proof.
  split.
  - intros o1 o2. split; reflexivity.
  - destruct o as [[[s|] [e|]] t]; cbn; auto.
    right. exists s, e, t. split; reflexivity.
Qed.

(** A segment with a start and no end makes the conversion to
    milliseconds fail before anything is stored or printed. *)
Lemma start_without_end_raises (self : ServerProcessor E) (s : Q) (t : str) :
  format_output_transcript self (Some s, None, t) = (Raised TypeError, self).
Proof. reflexivity. Qed.

End SessionProperties.

(** The clamp works on starts only: when the engine's end falls back, so
    does the emitted end, and the interval emitted for it is empty. *)
Example emitted_end_may_fall_back :
  map fst (stitched None [(0, 5, []); (1, 3, [])]%Q)
  = [(0, 5000); (5000, 3000)]%Q.
Proof. reflexivity. Qed.

(** ** Audio accumulation *)

Lemma total_len_app (a b : list audio) :
  total_len (a ++ b) = total_len a + total_len b.
Proof.
  unfold total_len. induction a as [|x a IH]; simpl; [reflexivity|].
  rewrite IH. lia.
Qed.

Lemma total_len_nonneg (a : list audio) : 0 <= total_len a.
Proof.
  unfold total_len, len. induction a as [|x a IH]; simpl; lia.
Qed.

Lemma total_len_concat (a : list audio) : len (List.concat a) = total_len a.
Proof.
  unfold total_len, len. induction a as [|x a IH]; simpl; [reflexivity|].
  rewrite length_app. lia.
Qed.

(** A read returns what it removes from the pending bytes; a raised
    exception removes none. *)
Lemma recv_events_bytes blk bufsize evs :
  0 <= bufsize ->
  match recv_events blk bufsize evs with
  | (Returned b, evs') => bytes_of evs = b ++ bytes_of evs'
  | (Raised _, evs') => bytes_of evs = bytes_of evs'
  end.
Proof.
  intros Hb. induction evs as [|[b| |] evs IH]; simpl.
  - reflexivity.
  - destruct (len b <=? bufsize); [reflexivity|].
    simpl. unfold slice, slice_from. rewrite Z.sub_0_r. simpl.
    now rewrite app_assoc, firstn_skipn.
  - destruct blk; [exact IH|reflexivity].
  - reflexivity.
Qed.

(** A read that returns data shortens what is pending. *)
Lemma recv_events_pending blk bufsize evs b evs' :
  0 < bufsize ->
  recv_events blk bufsize evs = (Returned b, evs') -> b <> [] ->
  (pending evs' < pending evs)%nat.
Proof.
  intros Hb. induction evs as [|[d| |] evs IH]; simpl.
  - intros [= <- <-] Hne. contradiction.
  - destruct (Z.leb_spec (len d) bufsize).
    + intros [= <- <-] _. lia.
    + intros [= <- <-] _. simpl. unfold slice_from.
      rewrite length_skipn. unfold len in *. lia.
  - destruct blk; [|discriminate]. intros H Hne.
    specialize (IH H Hne). lia.
  - discriminate.
Qed.

Lemma Connection_PACKET_SIZE_pos : 0 < Connection_PACKET_SIZE.
Proof. reflexivity. Qed.

Lemma accumulate_extends fuel c minlimit out out' c' :
  accumulate fuel c minlimit out = Some (Returned out', c') ->
  exists more, out' = out ++ more.
Proof.
  revert c out. induction fuel as [|fuel IH]; intros c out; simpl.
  - discriminate.
  - destruct (Qltb _ minlimit).
    + destruct (non_blocking_receive_audio c) as [[[[|x raw]|]|e] c1].
      * intros [= <- <-]. exists []. now rewrite app_nil_r.
      * intros H. apply IH in H as [more ->].
        exists (load_pcm16 (x :: raw) :: more). now rewrite <- app_assoc.
      * intros [= <- <-]. exists []. now rewrite app_nil_r.
      * discriminate.
    + intros [= <- <-]. exists []. now rewrite app_nil_r.
Qed.

(** The loop ends within the fuel that [receive_audio_chunk] gives it. *)
Lemma accumulate_terminates fuel c minlimit out :
  (pending (rx (conn c)) < fuel)%nat ->
  exists r c', accumulate fuel c minlimit out = Some (r, c').
Proof.
  revert c out. induction fuel as [|fuel IH]; intros c out Hf; [lia|].
  simpl. destruct (Qltb _ minlimit); [|eauto].
  unfold non_blocking_receive_audio, recv.
  destruct (recv_events (blocking (conn c)) Connection_PACKET_SIZE
              (rx (conn c))) as [[b|e] evs'] eqn:Hr.
  - destruct b as [|x b]; [eauto|].
    apply IH. simpl.
    apply recv_events_pending in Hr;
      [lia|apply Connection_PACKET_SIZE_pos|discriminate].
  - destruct e; eauto.
Qed.

(** A loop that collected nothing took no byte from the connection. *)
Lemma accumulate_nothing fuel c minlimit c' :
  accumulate fuel c minlimit [] = Some (Returned [], c') ->
  bytes_of (rx (conn c')) = bytes_of (rx (conn c)).
Proof.
  destruct fuel as [|fuel]; simpl; [discriminate|].
  destruct (Qltb _ minlimit); [|now intros [= <-]].
  unfold non_blocking_receive_audio, recv.
  pose proof (recv_events_bytes (blocking (conn c)) Connection_PACKET_SIZE
                (rx (conn c))) as Hb.
  destruct (recv_events _ _ _) as [[b|e] evs'].
  - specialize (Hb ltac:(discriminate)).
    destruct b as [|x b].
    + intros [= <-]. simpl. now rewrite Hb.
    + intros H. apply accumulate_extends in H as [more H].
      destruct more; discriminate.
  - specialize (Hb ltac:(discriminate)).
    destruct e; try discriminate.
    intros [= <-]. simpl. now rewrite Hb.
Qed.

(** Chunks that stay below the limit are all read, then the close. *)
Lemma accumulate_drains chunks :
  forall fuel c minlimit out stop rest,
    rx (conn c) = map RxData chunks ++ stop ->
    closes stop rest ->
    Forall whole_chunk chunks ->
    (inject_Z (total_len (out ++ map load_pcm16 chunks)) < minlimit)%Q ->
    (List.length chunks < fuel)%nat ->
    accumulate fuel c minlimit out
    = Some (Returned (out ++ map load_pcm16 chunks), with_rx c rest).
Proof.
  induction chunks as [|b chunks IH];
    intros fuel c minlimit out stop rest Hrx Hstop Hall Hlt Hfuel.
  - destruct fuel as [|fuel]; [simpl in Hfuel; lia|].
    simpl in *. rewrite app_nil_r in *.
    apply Qltb_lt in Hlt. rewrite Hlt.
    unfold non_blocking_receive_audio, recv. rewrite Hrx.
    destruct Hstop; reflexivity.
  - destruct fuel as [|fuel]; [simpl in Hfuel; lia|].
    inversion Hall as [|? ? [Hne Hsz] Hall']; subst.
    cbn [accumulate].
    assert (Hout : Qltb (inject_Z (total_len out)) minlimit = true).
    { apply Qltb_lt. eapply Qle_lt_trans; [|exact Hlt].
      rewrite <- Zle_Qle. rewrite total_len_app.
      pose proof (total_len_nonneg (map load_pcm16 (b :: chunks))). lia. }
    rewrite Hout.
    unfold non_blocking_receive_audio, recv. rewrite Hrx.
    cbn [map app recv_events].
    destruct (Z.leb_spec (len b) Connection_PACKET_SIZE); [|lia].
    destruct b as [|x b]; [contradiction|].
    rewrite (IH fuel _ minlimit (out ++ [load_pcm16 (x :: b)]) stop rest).
    + cbn [map]. rewrite <- app_assoc. reflexivity.
    + reflexivity.
    + exact Hstop.
    + exact Hall'.
    + rewrite <- app_assoc. exact Hlt.
    + simpl in Hfuel. lia.
Qed.

Lemma pending_chunks chunks stop :
  (List.length chunks <= pending (map RxData chunks ++ stop))%nat.
Proof.
  induction chunks as [|b chunks IH]; simpl; lia.
Qed.

Section AccumulatorProperties.

Context {E : Type} {engine : OnlineASR E}.

Lemma receive_audio_chunk_terminates (self : ServerProcessor E) :
  exists r self', receive_audio_chunk self = Some (r, self').
Proof.
  unfold receive_audio_chunk.
  destruct (accumulate_terminates (S (pending (rx (conn (connection self)))))
              (connection self) (minlimit_of self) []) as (r & c' & ->);
    [lia|].
  destruct r as [[|a out]|e]; eauto.
  destruct (_ && _); eauto.
Qed.

(** C5. Let the peer deliver chunks that together hold fewer than
    [min_chunk * 16000] samples and then close or reset the connection.
    While the session still waits for its first chunk the call returns
    null, the session keeps waiting for its first chunk and the samples
    read are gone. Once a first chunk has been delivered the same call
    returns the partial buffer, if any chunk came. On such a later call
    null means that not one byte was taken from the connection. A first
    chunk, when it comes, is never shorter than the limit. *)
Theorem first_chunk_gating (self : ServerProcessor E) :
  (forall chunks stop rest,
      rx (conn (connection self)) = map RxData chunks ++ stop ->
      closes stop rest ->
      Forall whole_chunk chunks ->
      (inject_Z (total_len (map load_pcm16 chunks)) < minlimit_of self)%Q ->
      (is_first self = true ->
       receive_audio_chunk self
       = Some (Returned None,
               set_connection self (with_rx (connection self) rest)))
      /\ (is_first self = false -> chunks <> [] ->
          receive_audio_chunk self
          = Some (Returned (Some (List.concat (map load_pcm16 chunks))),
                  set_is_first
                    (set_connection self (with_rx (connection self) rest))
                    false)))
  /\ (forall self',
         is_first self = false ->
         receive_audio_chunk self = Some (Returned None, self') ->
         bytes_of (rx (conn (connection self')))
         = bytes_of (rx (conn (connection self))))
  /\ (forall a self',
         is_first self = true ->
         receive_audio_chunk self = Some (Returned (Some a), self') ->
         (minlimit_of self <= inject_Z (len a))%Q /\ is_first self' = false).
Proof.
  split; [|split].
  - intros chunks stop rest Hrx Hstop Hall Hlt.
    unfold receive_audio_chunk.
    rewrite (accumulate_drains chunks _ _ _ [] stop rest Hrx Hstop Hall);
      [|exact Hlt|rewrite Hrx; pose proof (pending_chunks chunks stop); lia].
    cbn [app]. split.
    + intros Hfirst.
      destruct (map load_pcm16 chunks) as [|a out] eqn:Hm; [reflexivity|].
      cbn [set_connection is_first]. rewrite Hfirst.
      rewrite total_len_concat. apply Qltb_lt in Hlt. rewrite Hlt.
      reflexivity.
    + intros Hlater Hne.
      destruct chunks as [|b chunks]; [contradiction|].
      cbn [map set_connection is_first]. rewrite Hlater. reflexivity.
  - intros self' Hlater. unfold receive_audio_chunk.
    destruct (accumulate _ _ _ _) as [[[out|e] c']|] eqn:Hacc;
      try discriminate.
    destruct out as [|a out].
    + intros [= <-]. cbn. eapply accumulate_nothing; eauto.
    + cbn [set_connection is_first]. rewrite Hlater. discriminate.
  - intros a self' Hfirst. unfold receive_audio_chunk.
    destruct (accumulate _ _ _ _) as [[[out|e] c']|] eqn:Hacc;
      try discriminate.
    destruct out as [|a0 out]; [discriminate|].
    cbn [set_connection is_first]. rewrite Hfirst. cbn [andb].
    destruct (Qltb _ _) eqn:Hq; [discriminate|].
    intros [= <- <-]. split; [|reflexivity].
    now apply Qltb_ge in Hq.
Qed.

End AccumulatorProperties.

Lemma first_chunk_gating_witness :
  let c := Connection_init (mkSocket false [RxData [0; 64; 0; 192]] [] None) in
  let first := ServerProcessor_init c ([] : list call) 1 in
  let later := set_is_first first false in
  receive_audio_chunk first
  = Some (Returned None, set_connection first (with_rx c []))
  /\ receive_audio_chunk later
     = Some (Returned (Some [16384 # 32768; -16384 # 32768]%Q),
             set_is_first (set_connection later (with_rx c [])) false).
Proof.
  intros c first later.
  assert (Hall : Forall whole_chunk [[0; 64; 0; 192]]).
  { repeat constructor; discriminate. }
  split.
  - destruct (first_chunk_gating first) as [H _].
    destruct (H [[0; 64; 0; 192]] [] [] eq_refl closes_eof Hall eq_refl)
      as [H1 _].
    exact (H1 eq_refl).
  - destruct (first_chunk_gating later) as [H _].
    destruct (H [[0; 64; 0; 192]] [] [] eq_refl closes_eof Hall eq_refl)
      as [_ H2].
    apply H2; [reflexivity|discriminate].
Defined.

(** ** Connection: reading audio *)

Lemma recv_events_bounded blk bufsize evs b evs' :
  0 <= bufsize ->
  recv_events blk bufsize evs = (Returned b, evs') -> len b <= bufsize.
Proof.
  intros Hb. induction evs as [|[d| |] evs IH]; simpl.
  - intros [= <- <-]. exact Hb.
  - destruct (Z.leb_spec (len d) bufsize).
    + intros [= <- <-]. assumption.
    + intros [= <- <-]. unfold slice, len in *. rewrite Z.sub_0_r.
      rewrite length_firstn. simpl. lia.
  - destruct blk; [exact IH|discriminate].
  - discriminate.
Qed.

Lemma recv_events_reset blk bufsize evs evs' :
  recv_events blk bufsize evs = (Raised ConnectionResetError, evs') ->
  exists silence,
    evs = silence ++ RxReset :: evs' /\ Forall (eq RxIdle) silence.
Proof.
  induction evs as [|[d| |] evs IH]; simpl.
  - discriminate.
  - destruct (len d <=? bufsize); discriminate.
  - destruct blk; [|discriminate].
    intros H. apply IH in H as (silence & -> & Hs).
    exists (RxIdle :: silence). split; [reflexivity|now constructor].
  - intros [= <-]. exists []. split; [reflexivity|constructor].
Qed.

Lemma recv_events_raised blk bufsize evs e evs' :
  recv_events blk bufsize evs = (Raised e, evs') ->
  e = ConnectionResetError \/ (e = BlockingIOError /\ blk = false).
Proof.
  induction evs as [|[d| |] evs IH]; simpl.
  - discriminate.
  - destruct (len d <=? bufsize); discriminate.
  - destruct blk; [exact IH|]. intros [= <- <-]. now right.
  - intros [= <- <-]. now left.
Qed.

(** C9, as stated, fails when the peer has closed the connection: the call
    returns the empty bytes object, not null. *)
Lemma closed_connection_reads_empty_bytes :
  ~ null_when_closed (Connection_init idle_socket).
Proof.
  intros H. specialize (H eq_refl). discriminate.
Qed.

(** C9, amended. [non_blocking_receive_audio] makes one read of at most
    [Connection.PACKET_SIZE] bytes, which it takes from the front of what
    the peer has sent; the socket was put in blocking mode by the
    constructor, and in that mode the read sits through the peer's silence.
    The call returns the bytes read, which is the empty bytes object when
    the peer has closed the connection, and null exactly when the peer
    reset the connection. *)
Theorem receive_audio_is_one_bounded_read (c : Connection) :
  match non_blocking_receive_audio c with
  | (Returned (Some b), c') =>
      len b <= Connection_PACKET_SIZE
      /\ bytes_of (rx (conn c)) = b ++ bytes_of (rx (conn c'))
  | (Returned None, c') =>
      exists silence,
        rx (conn c) = silence ++ RxReset :: rx (conn c')
        /\ Forall (eq RxIdle) silence
  | (Raised e, _) => e = BlockingIOError /\ blocking (conn c) = false
  end
  /\ non_blocking_receive_audio (with_rx c [])
     = (Returned (Some []), with_rx c [])
  /\ (forall rest,
         non_blocking_receive_audio (with_rx c (RxReset :: rest))
         = (Returned None, with_rx c rest))
  /\ (forall sock rest,
         blocking (conn (Connection_init sock)) = true
         /\ non_blocking_receive_audio
              (with_rx (Connection_init sock) (RxIdle :: rest))
            = non_blocking_receive_audio (with_rx (Connection_init sock) rest)).
Proof.
  split; [|split; [|split]].
  - unfold non_blocking_receive_audio, recv.
    pose proof (recv_events_bytes (blocking (conn c)) Connection_PACKET_SIZE
                  (rx (conn c)) ltac:(discriminate)) as Hbytes.
    destruct (recv_events _ _ _) as [[b|e] evs'] eqn:Hr.
    + split; [|exact Hbytes].
      eapply recv_events_bounded; [|exact Hr]. discriminate.
    + destruct (recv_events_raised _ _ _ _ _ Hr) as [->|[-> Hblk]].
      * now apply recv_events_reset in Hr.
      * split; [reflexivity|exact Hblk].
  - reflexivity.
  - reflexivity.
  - intros sock rest. split; reflexivity.
Qed.

(** ** Session: the end of [process] *)

Lemma recv_events_pending_le blk bufsize evs :
  (pending (snd (recv_events blk bufsize evs)) <= pending evs)%nat.
Proof.
  induction evs as [|[d| |] evs IH]; simpl; try lia.
  - destruct (len d <=? bufsize); simpl; [lia|].
    unfold slice_from. rewrite length_skipn. lia.
  - destruct blk; simpl; lia.
Qed.

Lemma accumulate_pending fuel c minlimit out out' c' :
  accumulate fuel c minlimit out = Some (Returned out', c') ->
  (pending (rx (conn c')) <= pending (rx (conn c)))%nat
  /\ (out' <> out -> (pending (rx (conn c')) < pending (rx (conn c)))%nat).
Proof.
  revert c out. induction fuel as [|fuel IH]; intros c out; simpl.
  - discriminate.
  - destruct (Qltb _ minlimit); [|intros [= <- <-]; split; [lia|congruence]].
    unfold non_blocking_receive_audio, recv.
    pose proof (recv_events_pending_le (blocking (conn c))
                  Connection_PACKET_SIZE (rx (conn c))) as Hle.
    destruct (recv_events _ _ _) as [[b|e] evs'] eqn:Hr; simpl in Hle.
    + destruct b as [|x b].
      * intros [= <- <-]. simpl. split; [lia|congruence].
      * intros H. apply IH in H as [H1 _]. simpl in H1.
        apply recv_events_pending in Hr;
          [|apply Connection_PACKET_SIZE_pos|discriminate].
        split; lia.
    + destruct e; try discriminate.
      intros [= <- <-]. simpl. split; [lia|congruence].
Qed.

Lemma send_packets_rx sock data pad offsets :
  rx (snd (send_packets sock data pad offsets)) = rx sock.
Proof.
  revert sock. induction offsets as [|o os IH]; intros sock; simpl.
  - reflexivity.
  - unfold sendall. destruct (tx_credit sock) as [[|n]|]; simpl.
    + reflexivity.
    + now rewrite IH.
    + now rewrite IH.
Qed.

Lemma send_rx c line : rx (conn (snd (send c line))) = rx (conn c).
Proof.
  unfold send. destruct (str_eqb _ _); [reflexivity|].
  unfold send_one_line.
  pose proof (send_packets_rx (conn c) (line_data line false) false
                (range 0 (len (line_data line false)) PACKET_SIZE)) as H.
  destruct (send_packets _ _ _ _) as [[[]|e] s']; exact H.
Qed.

Section ProcessProperties.

Context {E : Type} {engine : OnlineASR E}.

Lemma receive_audio_chunk_pending (self self' : ServerProcessor E) a :
  receive_audio_chunk self = Some (Returned (Some a), self') ->
  (pending (rx_of self') < pending (rx_of self))%nat
  /\ online_asr_proc self' = online_asr_proc self.
Proof.
  unfold receive_audio_chunk, rx_of.
  destruct (accumulate _ _ _ _) as [[[out|e] c']|] eqn:Hacc;
    try discriminate.
  apply accumulate_pending in Hacc as [_ Hlt].
  destruct out as [|a0 out]; [discriminate|].
  destruct (_ && _); [discriminate|].
  intros [= <- <-]. simpl. split; [|reflexivity].
  apply Hlt. discriminate.
Qed.

Lemma send_result_rx (self : ServerProcessor E) o :
  rx_of (snd (send_result self o)) = rx_of self.
Proof.
  unfold send_result, rx_of.
  destruct o as [[[s|] [e|]] t]; cbn; try reflexivity.
  pose proof (send_rx (connection self)
    (LinePacket.transcript_line
       match last_end self with
       | Some l => max (s * 1000) l
       | None => (s * 1000)%Q
       end (e * 1000) t)) as H.
  destruct (send _ _) as [r c']. exact H.
Qed.

(** The loop of [process] ends within its fuel. *)
Lemma process_loop_terminates fuel (self : ServerProcessor E) :
  (pending (rx_of self) < fuel)%nat ->
  exists r self', process_loop fuel self = Some (r, self').
Proof.
  revert self. induction fuel as [|fuel IH]; intros self Hf; [lia|].
  cbn [process_loop].
  destruct (receive_audio_chunk_terminates self) as (r & self1 & Hr).
  rewrite Hr. destruct r as [[a|]|e]; eauto.
  apply receive_audio_chunk_pending in Hr as [Hlt _].
  destruct (asr_process_iter _) as [[o|e] e']; eauto.
  pose proof (send_result_rx
    (set_online_asr_proc
       (set_online_asr_proc self1
          (asr_insert_audio_chunk (online_asr_proc self1) a)) e') o) as Hrx.
  destruct (send_result _ o) as [[[]|e] self2].
  - apply IH. simpl in Hrx. rewrite Hrx. unfold rx_of in *. simpl. lia.
  - destruct e; eauto.
Qed.

Lemma process_terminates (self : ServerProcessor E) :
  exists r self', process self = Some (r, self').
Proof.
  unfold process. apply process_loop_terminates. unfold rx_of. simpl. lia.
Qed.

End ProcessProperties.

(** On the recording engine no step of the loop asks for a flush. *)
Lemma process_loop_never_flushes fuel (self : ServerProcessor (list call)) r self' :
  process_loop fuel self = Some (r, self') ->
  flushes (online_asr_proc self') = flushes (online_asr_proc self).
Proof.
  revert self. induction fuel as [|fuel IH]; intros self; [discriminate|].
  cbn [process_loop].
  destruct (receive_audio_chunk self) as [[[[a|]|e] self1]|] eqn:Hr;
    try discriminate.
  - apply receive_audio_chunk_pending in Hr as [_ Heng].
    cbn [asr_process_iter asr_insert_audio_chunk recording_engine].
    cbn [send_result format_output_transcript].
    intros H. apply IH in H. rewrite H. cbn. rewrite <- Heng.
    unfold flushes. rewrite !filter_app, !length_app. simpl. lia.
  - intros [= <- <-]. revert Hr. unfold receive_audio_chunk.
    destruct (accumulate _ _ _ _) as [[[out|e] c']|]; try discriminate.
    destruct out as [|a0 out]; [now intros [= <-]|].
    destruct (_ && _); [now intros [= <-]|discriminate].
  - intros [= <- <-]. revert Hr. unfold receive_audio_chunk.
    destruct (accumulate _ _ _ _) as [[[out|e'] c']|]; try discriminate.
    + destruct out as [|a0 out]; [discriminate|].
      destruct (_ && _); discriminate.
    + now intros [= <- <-].
Qed.

(** C6 on the code. The peer sends one full chunk and closes: [process]
    initialises the engine, feeds the chunk, asks for one iteration and
    returns. The engine is never asked to flush, so the segment it holds
    back for [finish] reaches neither the wire nor stderr. *)
Theorem process_ends_without_flush :
  exists final,
    process short_session = Some (Returned tt, final)
    /\ online_asr_proc final
       = [CallInit;
          CallInsert [16384 # 32768; -16384 # 32768;
                      16384 # 32768; -16384 # 32768]%Q;
          CallProcessIter]
    /\ flushes (online_asr_proc final) = 0%nat
    /\ wire (connection final) = []
    /\ stderr final = []
    /\ rx_of final = [].
Proof.
  eexists. split; [vm_compute; reflexivity|].
  repeat split.
Qed.

(** The same for every session on the recording engine. *)
Lemma process_never_flushes (self : ServerProcessor (list call)) r self' :
  process self = Some (r, self') ->
  flushes (online_asr_proc self') = flushes (online_asr_proc self).
Proof.
  unfold process. intros H. apply process_loop_never_flushes in H.
  rewrite H. cbn. unfold flushes. rewrite filter_app, length_app. simpl. lia.
Qed.

(** ** The simulation driver *)

Section DriverProperties.

Import WhisperOnline.

Context {E : Type} {engine : OnlineASR E}.
Variable clock : nat -> Q.

Lemma output_transcript_without_now start w o :
  output_transcript clock start w o None
  = (Returned None, mkWorld (stdout w) (logfile w) (S (ticks w))).
Proof. reflexivity. Qed.

Lemma iteration_without_now start w online a :
  stdout (fst (snd (iteration clock start w online a None))) = stdout w.
Proof.
  unfold iteration.
  destruct (asr_process_iter _) as [[o|[]] online']; reflexivity.
Qed.

Lemma live_loop_never_prints fuel file duration min_chunk start :
  forall w online beg end_ r w' online',
    live_loop clock fuel file duration min_chunk start w online beg end_
    = Some (r, (w', online')) ->
    stdout w' = stdout w.
Proof.
  induction fuel as [|fuel IH]; intros w online beg end_ r w' online';
    [discriminate|].
  cbn [live_loop time]. cbv zeta.
  match goal with
  | |- context [iteration clock start ?w0 online ?a None] =>
      pose proof (iteration_without_now start w0 online a) as Hit;
      destruct (iteration clock start w0 online a None) as [[[]|e] [w1 online1]]
  end; cbn in Hit.
  - destruct (Qle_bool duration _).
    + intros [= <- <- <-]. exact Hit.
    + intros H. apply IH in H. cbn in H. congruence.
  - intros [= <- <- <-]. exact Hit.
Qed.

(** In the offline and in the live mode no call of [output_transcript] is
    given an emission time, so the run leaves stdout as it found it,
    whatever the engine recognises. *)
Lemma offline_and_live_never_print fuel mode file start_at min_chunk w online
    r w' online' :
  mode <> ComputationUnaware ->
  main clock fuel mode file start_at min_chunk w online
  = Some (r, (w', online')) ->
  stdout w' = stdout w.
Proof.
  intros Hmode. unfold main. cbn [time]. cbv zeta.
  destruct mode; [|contradiction|].
  - match goal with
    | |- context [iteration clock ?st ?w0 online ?a None] =>
        pose proof (iteration_without_now st w0 online a) as Hit;
        destruct (iteration clock st w0 online a None)
          as [[[]|e] [w1 online1]]
    end; cbn in Hit.
    + destruct (asr_finish online1) as [o online2].
      rewrite output_transcript_without_now.
      intros [= <- <- <-]. exact Hit.
    + intros [= <- <- <-]. exact Hit.
  - match goal with
    | |- context [live_loop clock fuel file ?d min_chunk ?st ?w0 online ?b ?e] =>
        pose proof (live_loop_never_prints fuel file d min_chunk st
                      w0 online b e) as Hl;
        destruct (live_loop clock fuel file d min_chunk st w0 online b e)
          as [[[[]|e'] [w1 online1]]|]
    end; try discriminate.
    + specialize (Hl _ _ _ eq_refl). cbn in Hl.
      destruct (asr_finish online1) as [o online2].
      rewrite output_transcript_without_now.
      intros [= <- <- <-]. exact Hl.
    + specialize (Hl _ _ _ eq_refl). cbn in Hl.
      intros [= <- <- <-]. exact Hl.
Qed.

End DriverProperties.

(** C7 on the code. In the offline mode the engine hands out a recognised
    segment from [process_iter] and another from [finish]; the driver
    returns having printed nothing, on stdout or on the log file. *)
Theorem offline_mode_reports_nothing :
  WhisperOnline.main seconds 1 WhisperOnline.Offline [0; 0]%Q 0 1
    fresh_world two_segments
  = Some (Returned tt, (WhisperOnline.mkWorld [] [] 3, [])).
Proof. vm_compute. reflexivity. Qed.

(** The computation-unaware mode on the same input prints both segments
    with their emission time. *)
Example comp_unaware_mode_reports :
  WhisperOnline.main seconds 1 WhisperOnline.ComputationUnaware [0; 0]%Q 0 1
    fresh_world two_segments
  = Some (Returned tt,
          (WhisperOnline.mkWorld
             [lit "1000.0000 0 1720 Takhle to je";
              lit "0.1250 1720 2500 dobre"]
             [lit "1000.0000 0 1720 Takhle to je";
              lit "0.1250 1720 2500 dobre"] 1, [])).
Proof. vm_compute. reflexivity. Qed.

(** The live mode on the same input prints nothing either. *)
Example live_mode_reports_nothing :
  WhisperOnline.main seconds 1 WhisperOnline.Live [0; 0]%Q 0 1
    fresh_world two_segments
  = Some (Returned tt, (WhisperOnline.mkWorld [] [] 6, [])).
Proof. vm_compute. reflexivity. Qed.

(** ** Framing: the line that is sent *)

Lemma splitlines_aux_hd cur s :
  hd [] (splitlines_aux cur s) = rev cur ++ until_linebreak s.
Proof.
  revert cur. induction s as [|c s IH]; intros cur; simpl.
  - rewrite app_nil_r. destruct cur; reflexivity.
  - destruct (is_linebreak c).
    + simpl. now rewrite app_nil_r.
    + rewrite IH. simpl. now rewrite <- app_assoc.
Qed.

Lemma first_line_until_linebreak text : first_line text = until_linebreak text.
Proof. unfold first_line, splitlines. now rewrite splitlines_aux_hd. Qed.

Lemma until_linebreak_clean s :
  Forall (fun c => is_linebreak c = false) (until_linebreak s).
Proof.
  induction s as [|c s IH]; simpl; [constructor|].
  destruct (is_linebreak c) eqn:Hc; constructor; assumption.
Qed.

(** Counting NUL as a line terminator changes nothing for a text whose
    first line holds no NUL. *)
Lemma until_linebreak_replace s :
  ~ In 0 (until_linebreak s) ->
  until_linebreak (replace s 0 10) = until_linebreak s.
Proof.
  induction s as [|c s IH]; simpl; [reflexivity|].
  destruct (Z.eqb_spec c 0) as [->|Hc].
  - simpl. intros H. exfalso. apply H. now left.
  - destruct (is_linebreak c); [reflexivity|].
    simpl. intros H. f_equal. apply IH. tauto.
Qed.

Lemma line_data_first_line text pad :
  line_data text pad
  = encode (first_line text) ++ [10] ++ (if pad then [0] else []).
Proof.
  unfold line_data, first_line. destruct (splitlines text); reflexivity.
Qed.

(** The bytes of an encoded character: the character itself when it is
    ASCII, [?], or a byte with the high bit set. *)
Lemma utf8_encode_char_bytes c b :
  0 <= c -> In b (utf8_encode_char c) -> (b = c /\ c < 128) \/ b = 63 \/ 128 <= b.
Proof.
  intros Hc. unfold utf8_encode_char.
  pose proof (Z.mod_pos_bound c 64 ltac:(lia)).
  pose proof (Z.mod_pos_bound (c / 64) 64 ltac:(lia)).
  pose proof (Z.mod_pos_bound (c / 4096) 64 ltac:(lia)).
  pose proof (Z.div_pos c 64 Hc ltac:(lia)).
  pose proof (Z.div_pos c 4096 Hc ltac:(lia)).
  pose proof (Z.div_pos c 262144 Hc ltac:(lia)).
  destruct (Z.ltb_spec c 128); [|destruct (Z.ltb_spec c 2048);
    [|destruct (is_surrogate c); [|destruct (Z.ltb_spec c 65536)]]];
    cbn [In]; intros Hin.
  all: repeat (destruct Hin as [Hin|Hin]; [subst b|]); try contradiction.
  all: lia.
Qed.

(** The payload never holds a newline: the first line has none and no
    other character encodes to one. *)
Lemma payload_has_no_newline text : ~ In 10 (encode (first_line text)).
Proof.
  rewrite first_line_until_linebreak.
  pose proof (until_linebreak_clean text) as Hclean.
  induction (until_linebreak text) as [|c s IH]; simpl; [tauto|].
  inversion Hclean as [|? ? Hc Hs]; subst.
  intros Hin. apply in_app_or in Hin as [Hin|Hin]; [|now apply IH].
  assert (Hne : c <> 10) by (intros ->; discriminate).
  destruct (Z.ltb_spec c 0) as [Hneg|Hpos].
  - unfold utf8_encode_char in Hin.
    destruct (Z.ltb_spec c 128); [|lia].
    destruct Hin as [Hin|[]]. contradiction.
  - apply utf8_encode_char_bytes in Hin as [[Hin _]|[Hin|Hin]];
      [congruence|lia|lia|exact Hpos].
Qed.

(** C2 on the code. The text [a NUL b] has no line boundary for
    [splitlines], the value of [replace] being dropped: the NUL and the
    text after it are part of the payload and go out on the wire. *)
Theorem nul_inside_the_payload :
  first_line [97; 0; 98] = [97; 0; 98]
  /\ expected_line [97; 0; 98] = [97]
  /\ line_data [97; 0; 98] false = [97; 0; 98; 10]
  /\ send_one_line idle_socket [97; 0; 98] false
     = (Returned tt, mkSocket false [] [[97; 0; 98; 10]] None).
Proof. repeat split. Qed.

(** ** UTF-8: decoding what was encoded *)

(** A byte [k * m + x] with [x] below [m] has [x] in its low bits. *)
Lemma low_bits k m x : 0 <= x < m -> (k * m + x) mod m = x.
Proof.
  intros Hx. symmetry. apply (Z.mod_unique _ _ k); lia.
Qed.

(** Six bits at a time: [c = 64 * (c / 64) + c mod 64]. *)
Lemma six_bits c :
  0 <= c -> c = 64 * (c / 64) + c mod 64 /\ 0 <= c mod 64 < 64 /\ 0 <= c / 64.
Proof.
  intros Hc. split; [apply Z.div_mod; lia|].
  split; [apply Z.mod_pos_bound; lia|apply Z.div_pos; lia].
Qed.

Ltac decide_tests :=
  repeat match goal with
  | |- context [?a <? ?b] =>
      first [ rewrite (proj2 (Z.ltb_lt a b)) by lia
            | rewrite (proj2 (Z.ltb_ge a b)) by lia ]
  | |- context [?a <=? ?b] =>
      first [ rewrite (proj2 (Z.leb_le a b)) by lia
            | rewrite (proj2 (Z.leb_gt a b)) by lia ]
  | |- context [?a =? ?b] =>
      first [ rewrite (proj2 (Z.eqb_eq a b)) by lia
            | rewrite (proj2 (Z.eqb_neq a b)) by lia ]
  end.

(** One step of [decode] on a non-empty input, with the rest kept folded. *)
Ltac decode_step :=
  match goal with
  | |- context [decode (?b :: ?r)] =>
      let r0 := fresh "r0" in
      let E := fresh "E" in
      remember r as r0 eqn:E in |- *;
      cbn [decode]; subst r0; cbv beta iota
  end.

Lemma decode_2 b0 b1 rest :
  194 <= b0 < 224 -> 128 <= b1 < 192 ->
  decode (b0 :: b1 :: rest) = (b0 mod 32 * 64 + b1 mod 64) :: decode rest.
Proof.
  intros H0 H1. decode_step. unfold is_cont.
  decide_tests. reflexivity.
Qed.

Lemma decode_3 b0 b1 b2 rest :
  224 <= b0 < 240 -> 128 <= b1 < 192 -> 128 <= b2 < 192 ->
  (b0 = 224 -> 160 <= b1) -> (b0 = 237 -> b1 < 160) ->
  decode (b0 :: b1 :: b2 :: rest)
  = (b0 mod 16 * 4096 + b1 mod 64 * 64 + b2 mod 64) :: decode rest.
Proof.
  intros H0 H1 H2 Hlo Hhi. decode_step. unfold is_cont.
  destruct (Z.ltb_spec b1 160); decide_tests; reflexivity.
Qed.

Lemma decode_4 b0 b1 b2 b3 rest :
  240 <= b0 < 245 -> 128 <= b1 < 192 -> 128 <= b2 < 192 -> 128 <= b3 < 192 ->
  (b0 = 240 -> 144 <= b1) -> (b0 = 244 -> b1 < 144) ->
  decode (b0 :: b1 :: b2 :: b3 :: rest)
  = (b0 mod 8 * 262144 + b1 mod 64 * 4096 + b2 mod 64 * 64 + b3 mod 64)
      :: decode rest.
Proof.
  intros H0 H1 H2 H3 Hlo Hhi. decode_step. unfold is_cont.
  destruct (Z.ltb_spec b1 144); decide_tests; reflexivity.
Qed.

Lemma decode_encode_char c rest :
  code_point c ->
  decode (utf8_encode_char c ++ rest) = lossy_char c :: decode rest.
Proof.
  unfold code_point, utf8_encode_char, lossy_char, is_surrogate.
  intros Hc.
  destruct (six_bits c ltac:(lia)) as (E1 & R1 & Q1).
  destruct (six_bits (c / 64) Q1) as (E2 & R2 & Q2).
  destruct (six_bits (c / 64 / 64) Q2) as (E3 & R3 & Q3).
  replace (c / 4096) with (c / 64 / 64)
    by (rewrite Z.div_div by lia; reflexivity).
  replace (c / 262144) with (c / 64 / 64 / 64)
    by (rewrite !Z.div_div by lia; reflexivity).
  set (r1 := c mod 64) in *. set (q1 := c / 64) in *.
  set (r2 := q1 mod 64) in *. set (q2 := q1 / 64) in *.
  set (r3 := q2 mod 64) in *. set (q3 := q2 / 64) in *.
  destruct (Z.ltb_spec c 128) as [L1|L1].
  { cbn [app]. decode_step. decide_tests. reflexivity. }
  destruct (Z.ltb_spec c 2048) as [L2|L2].
  { destruct (Z.leb_spec 55296 c); [lia|]. cbn [andb app].
    rewrite decode_2 by lia.
    replace 192 with (6 * 32) by reflexivity.
    replace 128 with (2 * 64) by reflexivity.
    rewrite !low_bits by lia. f_equal. lia. }
  destruct (Z.leb_spec 55296 c) as [L3|L3];
    destruct (Z.leb_spec c 57343) as [L4|L4]; cbn [andb].
  - reflexivity.
  - destruct (Z.ltb_spec c 65536) as [L5|L5]; cbn [app].
    + rewrite decode_3 by lia.
      replace 224 with (14 * 16) by reflexivity.
      replace 128 with (2 * 64) by reflexivity.
      rewrite !low_bits by lia. f_equal. lia.
    + rewrite decode_4 by lia.
      replace 240 with (30 * 8) by reflexivity.
      replace 128 with (2 * 64) by reflexivity.
      rewrite !low_bits by lia. f_equal. lia.
  - destruct (Z.ltb_spec c 65536) as [L5|L5]; [|lia]. cbn [app].
    rewrite decode_3 by lia.
    replace 224 with (14 * 16) by reflexivity.
    replace 128 with (2 * 64) by reflexivity.
    rewrite !low_bits by lia. f_equal. lia.
  - lia.
Qed.

(** ** Framing: reading the packets back *)

Lemma has_nul_true l : In 0 l -> has_nul l = true.
Proof.
  intros H. unfold has_nul. apply existsb_exists. exists 0. now split.
Qed.

Lemma has_nul_false l : ~ In 0 l -> has_nul l = false.
Proof.
  intros H. unfold has_nul. destruct (existsb _ l) eqn:He; [|reflexivity].
  apply existsb_exists in He as (x & Hx & Hz).
  apply Z.eqb_eq in Hz. subst. contradiction.
Qed.

Lemma PACKET_SIZE_pos : 0 < PACKET_SIZE.
Proof. reflexivity. Qed.

Lemma len_app {A} (a b : list A) : len (a ++ b) = len a + len b.
Proof. unfold len. rewrite length_app. lia. Qed.

Lemma len_nonneg {A} (a : list A) : 0 <= len a.
Proof. unfold len. lia. Qed.

Lemma pending_events evs : (List.length evs <= pending evs)%nat.
Proof.
  induction evs as [|[b| |] evs IH]; simpl; lia.
Qed.

#[local] Opaque PACKET_SIZE.

Lemma In_firstn {A} (x : A) n l : In x (firstn n l) -> In x l.
Proof.
  intros H. rewrite <- (firstn_skipn n l). apply in_or_app. now left.
Qed.

Lemma In_skipn {A} (x : A) n l : In x (skipn n l) -> In x l.
Proof.
  intros H. rewrite <- (firstn_skipn n l). apply in_or_app. now right.
Qed.

(** A slice of a terminated body that stops before the terminator lies in
    the body. *)
Lemma slice_in_body (body : bytes) off n x :
  (off + n <= List.length body)%nat ->
  In x (firstn n (skipn off (body ++ [0]))) -> In x body.
Proof.
  intros Hlen Hin.
  rewrite skipn_app, firstn_app in Hin.
  rewrite length_skipn in Hin.
  replace (n - (List.length body - off))%nat with 0%nat in Hin by lia.
  rewrite firstn_O, app_nil_r in Hin.
  now apply In_firstn, In_skipn in Hin.
Qed.

(** A non-empty tail of a terminated body holds the terminator. *)
Lemma terminator_in_tail (body : bytes) off :
  (off <= List.length body)%nat -> In 0 (skipn off (body ++ [0])).
Proof.
  intros Hlen. rewrite skipn_app.
  replace (off - List.length body)%nat with 0%nat by lia.
  apply in_or_app. right. now left.
Qed.

Lemma range_from_step fuel off stop step :
  off < stop ->
  range_from (S fuel) off stop step = off :: range_from fuel (off + step) stop step.
Proof.
  intros H. cbn [range_from]. now rewrite (proj2 (Z.ltb_lt off stop)).
Qed.

Lemma range_from_done fuel off stop step :
  stop <= off -> range_from fuel off stop step = [].
Proof.
  intros H. destruct fuel; [reflexivity|].
  cbn [range_from]. now rewrite (proj2 (Z.ltb_ge off stop)).
Qed.

Lemma recv_whole_packet sock pkt rest :
  rx sock = RxData pkt :: rest -> len pkt <= PACKET_SIZE ->
  recv sock PACKET_SIZE
  = (Returned pkt,
     mkSocket (blocking sock) rest (tx sock) (tx_credit sock)).
Proof.
  intros Hrx Hlen. unfold recv. rewrite Hrx. cbn [recv_events].
  now rewrite (proj2 (Z.leb_le _ _) Hlen).
Qed.

Lemma packet_at_short data pad off :
  len data - off < PACKET_SIZE ->
  packet_at data pad off
  = skipn (Z.to_nat off) data
      ++ (if pad then repeat 0 (Z.to_nat (PACKET_SIZE - (len data - off)))
          else []).
Proof.
  intros H. unfold packet_at, slice_from.
  now rewrite (proj2 (Z.ltb_lt _ _) H).
Qed.

Lemma packet_at_full data pad off :
  PACKET_SIZE <= len data - off ->
  packet_at data pad off
  = firstn (Z.to_nat PACKET_SIZE) (skipn (Z.to_nat off) data).
Proof.
  intros H. unfold packet_at, slice.
  rewrite (proj2 (Z.ltb_ge _ _) H). now rewrite Z.add_simpl_l.
Qed.

Lemma packet_at_bounded data pad off :
  0 <= off < len data -> 0 < len (packet_at data pad off) <= PACKET_SIZE.
Proof.
  intros Hoff. pose proof PACKET_SIZE_pos as HP.
  destruct (Z.lt_ge_cases (len data - off) PACKET_SIZE) as [H|H].
  - rewrite packet_at_short by exact H. rewrite len_app.
    unfold len in *. rewrite length_skipn.
    destruct pad; [rewrite repeat_length|simpl]; lia.
  - rewrite packet_at_full by exact H.
    unfold len in *. rewrite length_firstn, length_skipn. lia.
Qed.

(** Reading back the packets of a NUL-terminated [data]: every packet
    before the last is free of NUL and the loop goes on; the last one holds
    the terminator and ends it with [data] and its padding collected. *)
Lemma receive_packets_padded (body : bytes) :
  ~ In 0 body ->
  forall (n fuel : nat) (off : Z) (acc : bytes) (sock : socket),
    0 <= off < len (body ++ [0]) ->
    len (body ++ [0]) - off <= Z.of_nat n ->
    rx sock = map RxData
                (map (packet_at (body ++ [0]) true)
                   (range_from n off (len (body ++ [0])) PACKET_SIZE)) ->
    Z.of_nat (List.length (range_from n off (len (body ++ [0])) PACKET_SIZE))
    < Z.of_nat fuel ->
    exists k,
      receive_packets fuel sock acc
      = Some (Returned
                (Some (acc ++ skipn (Z.to_nat off) (body ++ [0]) ++ repeat 0 k)),
              mkSocket (blocking sock) [] (tx sock) (tx_credit sock)).
Proof.
  intros Hbody. pose proof PACKET_SIZE_pos as HP.
  set (data := body ++ [0]).
  assert (Hdata : len data = len body + 1)
    by (unfold data; rewrite len_app; reflexivity).
  induction n as [|n IH]; intros fuel off acc sock Hoff Hn Hrx Hfuel; [lia|].
  destruct fuel as [|fuel]; [lia|].
  rewrite range_from_step in Hrx, Hfuel by lia.
  cbn [map] in Hrx. cbn [List.length] in Hfuel.
  cbn [receive_packets].
  pose proof (packet_at_bounded data true off Hoff) as Hlen.
  rewrite (recv_whole_packet _ _ _ Hrx (proj2 Hlen)).
  destruct (packet_at data true off) as [|x pkt] eqn:Hp;
    [unfold len in Hlen; simpl in Hlen; lia|].
  rewrite <- Hp. clear Hlen.
  destruct (Z.lt_ge_cases (len data - off) PACKET_SIZE) as [Hshort|Hfull].
  - (* the last packet, padded *)
    rewrite range_from_done by lia.
    rewrite has_nul_true.
    + rewrite packet_at_short by exact Hshort. eexists. reflexivity.
    + rewrite packet_at_short by exact Hshort.
      apply in_or_app. left. apply terminator_in_tail. unfold len in *. lia.
  - rewrite packet_at_full by exact Hfull.
    destruct (Z.eq_dec (len data - off) PACKET_SIZE) as [Heq|Hne].
    + (* the last packet, exactly full *)
      rewrite range_from_done by lia.
      rewrite firstn_all2 by (rewrite length_skipn; unfold len in *; lia).
      rewrite has_nul_true by (apply terminator_in_tail; unfold len in *; lia).
      exists 0%nat. cbn [map repeat]. now rewrite app_nil_r.
    + (* a packet inside the body *)
      rewrite has_nul_false.
      2:{ intros Hin. apply Hbody. eapply slice_in_body; [|exact Hin].
          unfold len in *. lia. }
      match goal with
      | |- context [receive_packets fuel ?s ?a] =>
          destruct (IH fuel (off + PACKET_SIZE) a s) as [k Hk];
            [lia|lia|reflexivity|lia|]
      end.
      exists k. rewrite Hk. cbn [blocking tx tx_credit].
      rewrite <- app_assoc, (app_assoc (firstn _ _)).
      rewrite Z2Nat.inj_add by lia.
      rewrite Nat.add_comm, <- skipn_skipn, firstn_skipn. reflexivity.
Qed.

(** ** What the receiver makes of the collected bytes *)

Lemma decode_zeros k : decode (repeat 0 k) = repeat 0 k.
Proof.
  induction k as [|k IH]; [reflexivity|].
  cbn [repeat]. cbn [decode]. rewrite IH. reflexivity.
Qed.

Lemma lstrip_zeros k s : lstrip (repeat 0 k ++ s) 0 = lstrip s 0.
Proof. induction k as [|k IH]; [reflexivity|exact IH]. Qed.

Lemma lstrip_keeps s rest :
  ~ In 0 s -> lstrip (s ++ 10 :: rest) 0 = s ++ 10 :: rest.
Proof.
  destruct s as [|c s]; [reflexivity|].
  intros H. cbn [app lstrip].
  destruct (Z.eqb_spec c 0) as [->|Hc]; [|reflexivity].
  exfalso. apply H. now left.
Qed.

Lemma rev_repeat {A} (x : A) k : rev (repeat x k) = repeat x k.
Proof.
  induction k as [|k IH]; [reflexivity|].
  cbn [repeat rev]. rewrite IH.
  clear IH. induction k as [|k IH]; [reflexivity|].
  cbn [repeat app]. now rewrite IH.
Qed.

(** Stripping the padding leaves the line and its newline. *)
Lemma strip_padding s k :
  ~ In 0 s -> strip (s ++ 10 :: repeat 0 k) 0 = s ++ [10].
Proof.
  intros H. unfold strip, rstrip.
  rewrite lstrip_keeps by exact H.
  rewrite rev_app_distr. cbn [rev]. rewrite rev_repeat.
  rewrite <- !app_assoc. rewrite lstrip_zeros.
  cbn [app lstrip Z.eqb].
  cbn [rev]. now rewrite rev_involutive.
Qed.

Lemma split_aux_first sep cur s rest :
  ~ In sep s ->
  split_aux sep cur (s ++ sep :: rest)
  = (rev cur ++ s) :: split_aux sep [] rest.
Proof.
  revert cur. induction s as [|c s IH]; intros cur H; cbn [app split_aux].
  - rewrite Z.eqb_refl. now rewrite app_nil_r.
  - destruct (Z.eqb_spec c sep) as [->|Hc].
    + exfalso. apply H. now left.
    + rewrite IH by (intros Hin; apply H; now right).
      cbn [rev]. now rewrite <- app_assoc.
Qed.

Lemma split_first_line s :
  ~ In 10 s -> hd [] (split (s ++ [10]) 10) = s.
Proof.
  intros H. unfold split. now rewrite split_aux_first.
Qed.

(** Without padding no packet of a NUL-free [data] ends the loop: the
    receiver reads to the end of the stream and reports a closed
    connection. *)
Lemma receive_packets_unpadded (data : bytes) :
  ~ In 0 data ->
  forall (n fuel : nat) (off : Z) (acc : bytes) (sock : socket),
    0 <= off ->
    len data - off <= Z.of_nat n ->
    rx sock = map RxData
                (map (packet_at data false)
                   (range_from n off (len data) PACKET_SIZE)) ->
    Z.of_nat (List.length (range_from n off (len data) PACKET_SIZE))
    < Z.of_nat fuel ->
    receive_packets fuel sock acc
    = Some (Returned None,
            mkSocket (blocking sock) [] (tx sock) (tx_credit sock)).
Proof.
  intros Hdata. pose proof PACKET_SIZE_pos as HP.
  induction n as [|n IH]; intros fuel off acc sock Hoff Hn Hrx Hfuel.
  - destruct fuel as [|fuel]; [simpl in Hfuel; lia|].
    cbn [receive_packets range_from map] in *.
    unfold recv. rewrite Hrx. reflexivity.
  - destruct fuel as [|fuel]; [lia|].
    destruct (Z.lt_ge_cases off (len data)) as [Hlt|Hge].
    + rewrite range_from_step in Hrx, Hfuel by lia.
      cbn [map] in Hrx. cbn [List.length] in Hfuel.
      cbn [receive_packets].
      pose proof (packet_at_bounded data false off ltac:(lia)) as Hlen.
      rewrite (recv_whole_packet _ _ _ Hrx (proj2 Hlen)).
      destruct (packet_at data false off) as [|x pkt] eqn:Hp;
        [unfold len in Hlen; simpl in Hlen; lia|].
      rewrite <- Hp. clear Hlen.
      rewrite has_nul_false.
      * match goal with
        | |- context [receive_packets fuel ?s ?a] =>
            rewrite (IH fuel (off + PACKET_SIZE) a s);
              [reflexivity|lia|lia|reflexivity|lia]
        end.
      * intros Hin. apply Hdata.
        destruct (Z.lt_ge_cases (len data - off) PACKET_SIZE) as [H|H].
        -- rewrite packet_at_short in Hin by exact H.
           rewrite app_nil_r in Hin. now apply In_skipn in Hin.
        -- rewrite packet_at_full in Hin by exact H.
           now apply In_firstn, In_skipn in Hin.
    + rewrite range_from_done in Hrx by lia.
      cbn [receive_packets map] in *.
      unfold recv. rewrite Hrx. reflexivity.
Qed.

(** ** Framing: the round trip *)

Lemma decode_encode s rest :
  Forall code_point s -> decode (encode s ++ rest) = lossy s ++ decode rest.
Proof.
  induction 1 as [|c s Hc Hs IH]; [reflexivity|].
  unfold encode in *. cbn [flat_map lossy map].
  rewrite <- app_assoc, decode_encode_char by exact Hc.
  cbn [app]. f_equal. exact IH.
Qed.

Lemma until_linebreak_code_points s :
  Forall code_point s -> Forall code_point (until_linebreak s).
Proof.
  induction 1 as [|c s Hc Hs IH]; cbn [until_linebreak]; [constructor|].
  destruct (is_linebreak c); constructor; assumption.
Qed.

Lemma lossy_no_nul s : ~ In 0 s -> ~ In 0 (lossy s).
Proof.
  intros H Hin. apply in_map_iff in Hin as (c & Hc & Hin).
  unfold lossy_char in Hc. destruct (is_surrogate c); [discriminate|].
  subst. contradiction.
Qed.

Lemma lossy_no_newline s :
  Forall (fun c => is_linebreak c = false) s -> ~ In 10 (lossy s).
Proof.
  intros H Hin. apply in_map_iff in Hin as (c & Hc & Hin).
  rewrite Forall_forall in H. specialize (H c Hin).
  unfold lossy_char in Hc. destruct (is_surrogate c); [discriminate|].
  subst. discriminate.
Qed.

Lemma encode_no_nul s : Forall code_point s -> ~ In 0 s -> ~ In 0 (encode s).
Proof.
  induction 1 as [|c s Hc Hs IH]; intros Hnul Hin; [contradiction|].
  unfold encode in *. cbn [flat_map] in Hin.
  apply in_app_or in Hin as [Hin|Hin].
  - apply utf8_encode_char_bytes in Hin as [[Hin _]|[Hin|Hin]];
      [|discriminate|lia|apply Hc].
    apply Hnul. now left.
  - apply IH; [|exact Hin]. intros H. apply Hnul. now right.
Qed.

(** The text handed back for the collected bytes of a padded line. *)
Lemma received_line s k :
  Forall code_point s -> ~ In 0 s ->
  Forall (fun c => is_linebreak c = false) s ->
  hd [] (split (strip (decode ((encode s ++ [10]) ++ [0] ++ repeat 0 k)) 0) 10)
  = lossy s.
Proof.
  intros Hcp Hnul Hlb.
  rewrite <- app_assoc, decode_encode by exact Hcp.
  change (decode ([10] ++ [0] ++ repeat 0 k))
    with (decode (10 :: repeat 0 (S k))).
  replace (decode (10 :: repeat 0 (S k))) with (10 :: repeat 0 (S k)).
  2:{ symmetry. change (10 :: decode (repeat 0 (S k)) = 10 :: repeat 0 (S k)).
      now rewrite decode_zeros. }
  rewrite strip_padding by now apply lossy_no_nul.
  apply split_first_line. now apply lossy_no_newline.
Qed.

Lemma sent_packets text pad :
  send_one_line idle_socket text pad
  = (Returned tt, mkSocket false [] (packets_of text pad) None).
Proof.
  unfold send_one_line. now rewrite send_packets_unlimited.
Qed.

Lemma decode_ascii l : Forall (fun b => b < 128) l -> decode l = l.
Proof.
  induction 1 as [|b l Hb Hl IH]; [reflexivity|].
  decode_step. rewrite (proj2 (Z.ltb_lt _ _) Hb). now rewrite IH.
Qed.

(** A line shorter than a packet goes out as one packet. *)
Lemma packets_of_short text :
  len (line_data text true) < PACKET_SIZE ->
  packets_of text true
  = [line_data text true
       ++ repeat 0 (Z.to_nat (PACKET_SIZE - len (line_data text true)))].
Proof.
  intros Hlen. unfold packets_of, range.
  pose proof (line_data_nonempty text true) as Hpos.
  destruct (Z.to_nat (len (line_data text true) - 0)) as [|n] eqn:Hn; [lia|].
  rewrite range_from_step by lia. rewrite range_from_done by lia.
  cbn [map]. rewrite packet_at_short by lia.
  now rewrite Z.sub_0_r.
Qed.

(** A packet that holds a NUL is the whole of what the receiver reads. *)
Lemma receive_one_packet pkt :
  pkt <> [] -> len pkt <= PACKET_SIZE -> In 0 pkt ->
  receive_one_line (mkSocket true [RxData pkt] [] None)
  = Some (Returned (Some (hd [] (split (strip (decode pkt) 0) 10) ++ [10])),
          mkSocket true [] [] None).
Proof.
  intros Hne Hlen Hnul. unfold receive_one_line.
  cbn [rx pending receive_packets].
  rewrite (recv_whole_packet _ pkt []) by (reflexivity || exact Hlen).
  destruct pkt as [|x pkt]; [contradiction|].
  rewrite has_nul_true by exact Hnul. reflexivity.
Qed.

(** What the receiver hands back for the padded packet of [NUL a]. *)
Lemma nul_first_received k :
  hd [] (split (strip (decode ([0; 97; 10; 0] ++ repeat 0 k)) 0) 10) = [97].
Proof.
  rewrite decode_ascii.
  - change (strip ([0; 97; 10; 0] ++ repeat 0 k) 0)
      with (strip ([97] ++ 10 :: repeat 0 (S k)) 0).
    rewrite strip_padding by (intros [Hin|[]]; discriminate).
    apply split_first_line. intros [Hin|[]]; discriminate.
  - apply Forall_app. split; [repeat constructor|].
    apply Forall_forall. intros x Hx. apply repeat_spec in Hx. now subst.
Qed.

(** C3, as stated, fails for either way of sending. Sent the way
    [Connection.send] sends, a line carries no NUL and the receiver reads
    to the end of the stream and reports a closed connection. Sent padded,
    a line that starts with NUL comes back without the NUL, where the
    design document expects the empty line. *)
Lemma round_trip_fails :
  ~ round_trip false [104; 105] /\ ~ round_trip true [0; 97].
Proof.
  split; intros [sock' H]; rewrite sent_packets in H.
  - vm_compute in H. discriminate.
  - unfold peer_of in H. cbn [snd tx] in H.
    rewrite packets_of_short in H by reflexivity.
    change (line_data [0; 97] true) with [0; 97; 10; 0] in H.
    cbn [map] in H.
    assert (Hlen : len ([0; 97; 10; 0]
                     ++ repeat 0 (Z.to_nat (PACKET_SIZE - len [0; 97; 10; 0])))
                   <= PACKET_SIZE).
    { rewrite len_app. unfold len. rewrite repeat_length.
      change (Z.of_nat (List.length [0; 97; 10; 0])) with 4.
      assert (4 < PACKET_SIZE) by reflexivity. lia. }
    revert H Hlen.
    generalize (Z.to_nat (PACKET_SIZE - len [0; 97; 10; 0])). intros k H Hlen.
    rewrite receive_one_packet in H;
      [|discriminate|exact Hlen|apply in_or_app; left; now left].
    rewrite nul_first_received in H.
    change (expected_line [0; 97]) with (@nil Z) in H.
    discriminate.
Qed.

(** C3, amended. Let [L] be a text of code points whose first line holds
    no NUL. Sent with [pad_zeros] set, its packets are read back by
    [receive_one_line] as the first line of [L], lone surrogates replaced
    by [?], followed by one newline, however many packets the line takes.
    Sent without padding, the packets are read to the end of the stream
    and the receiver reports a closed connection. *)
Theorem padded_round_trip (L : str) :
  Forall code_point L ->
  ~ In 0 (first_line L) ->
  round_trip true L
  /\ expected_line L = lossy (first_line L)
  /\ receive_one_line (peer_of (snd (send_one_line idle_socket L false)))
     = Some (Returned None, peer_of idle_socket).
Proof.
  intros Hcp Hnul.
  assert (Hfl_cp : Forall code_point (first_line L)).
  { rewrite first_line_until_linebreak.
    now apply until_linebreak_code_points. }
  assert (Hfl_lb : Forall (fun c => is_linebreak c = false) (first_line L)).
  { rewrite first_line_until_linebreak. apply until_linebreak_clean. }
  assert (Hexp : expected_line L = lossy (first_line L)).
  { unfold expected_line. f_equal. rewrite !first_line_until_linebreak.
    apply until_linebreak_replace.
    now rewrite <- first_line_until_linebreak. }
  assert (Hbody : ~ In 0 (encode (first_line L) ++ [10])).
  { intros Hin. apply in_app_or in Hin as [Hin|[Hin|[]]]; [|discriminate].
    now apply (encode_no_nul (first_line L)). }
  split; [|split; [exact Hexp|]].
  - unfold round_trip. rewrite sent_packets. unfold peer_of, packets_of.
    cbn [tx snd]. rewrite line_data_first_line.
    replace (encode (first_line L) ++ [10] ++ [0])
      with ((encode (first_line L) ++ [10]) ++ [0])
      by now rewrite <- app_assoc.
    set (body := encode (first_line L) ++ [10]) in *.
    unfold receive_one_line. cbn [rx].
    match goal with
    | |- context [receive_packets ?fuel ?s []] =>
        destruct (receive_packets_padded body Hbody
                    (Z.to_nat (len (body ++ [0]) - 0)) fuel 0 [] s)
          as [k Hk]
    end.
    + pose proof (len_nonneg body). rewrite len_app.
      change (len [0]) with 1. lia.
    + pose proof (len_nonneg (body ++ [0])). lia.
    + reflexivity.
    + pose proof (pending_events
        (map RxData
           (map (packet_at (body ++ [0]) true)
              (range 0 (len (body ++ [0])) PACKET_SIZE)))) as Hp.
      rewrite !length_map in Hp. unfold range in *. lia.
    + rewrite Hk. eexists. f_equal. f_equal. f_equal. f_equal.
      cbn [app Z.to_nat skipn]. unfold body. rewrite <- app_assoc.
      rewrite Hexp. now rewrite received_line.
  - rewrite sent_packets. unfold peer_of, packets_of. cbn [tx snd].
    unfold receive_one_line. cbn [rx].
    assert (Hdata : ~ In 0 (line_data L false)).
    { rewrite line_data_first_line. exact Hbody. }
    match goal with
    | |- context [receive_packets ?fuel ?s []] =>
        rewrite (receive_packets_unpadded (line_data L false) Hdata
                   (Z.to_nat (len (line_data L false) - 0)) fuel 0 [] s)
    end.
    + reflexivity.
    + lia.
    + pose proof (len_nonneg (line_data L false)). lia.
    + reflexivity.
    + pose proof (pending_events
        (map RxData
           (map (packet_at (line_data L false) false)
              (range 0 (len (line_data L false)) PACKET_SIZE)))) as Hp.
      rewrite !length_map in Hp. unfold range in *. lia.
Qed.

Lemma padded_round_trip_witness :
  round_trip true [104; 233; 55296; 10; 0]
  /\ expected_line [104; 233; 55296; 10; 0] = [104; 233; 63].
Proof.
  destruct (padded_round_trip [104; 233; 55296; 10; 0]) as (H1 & H2 & _).
  - repeat constructor; unfold code_point; lia.
  - vm_compute. intuition discriminate.
  - split; [exact H1|exact H2].
Defined.

(** Lines that take several packets are among those the round trip
    covers. *)
Lemma long_lines_are_covered (n : nat) :
  PACKET_SIZE <= Z.of_nat n ->
  Forall code_point (repeat 97 n)
  /\ ~ In 0 (first_line (repeat 97 n))
  /\ 2 <= len (packets_of (repeat 97 n) true).
Proof.
  intros Hn.
  assert (Hfl : first_line (repeat 97 n) = repeat 97 n).
  { rewrite first_line_until_linebreak.
    induction n as [|m IH] in |- *; [reflexivity|].
    cbn [repeat until_linebreak]. now rewrite IH. }
  assert (Henc : encode (repeat 97 n) = repeat 97 n).
  { unfold encode. induction n as [|m IH] in |- *; [reflexivity|].
    cbn [repeat flat_map]. now rewrite IH. }
  split; [|split].
  - apply Forall_forall. intros x Hx. apply repeat_spec in Hx. subst.
    unfold code_point. lia.
  - rewrite Hfl. intros Hin. apply repeat_spec in Hin. discriminate.
  - unfold packets_of. rewrite line_data_first_line, Hfl, Henc.
    unfold len at 1. rewrite length_map. unfold range.
    assert (Hlen : len (repeat 97 n ++ [10] ++ [0]) = Z.of_nat n + 2).
    { rewrite len_app. unfold len. rewrite repeat_length. reflexivity. }
    rewrite Hlen. pose proof PACKET_SIZE_pos as HP.
    destruct (Z.to_nat (Z.of_nat n + 2 - 0)) as [|[|k]] eqn:Hk; [lia|lia|].
    rewrite range_from_step by lia. rewrite range_from_step by lia.
    cbn [List.length]. lia.
Qed.

(** ** The built-ins on sample inputs *)

Example splitlines_sample :
  splitlines (lit "ab" ++ [13; 10] ++ lit "cd" ++ [10]) = [lit "ab"; lit "cd"]
  /\ splitlines [10] = [[]]
  /\ splitlines [] = []
  /\ split [] 10 = [[]]
  /\ strip [0; 0; 97; 0; 98; 10; 0; 0] 0 = [97; 0; 98; 10].
Proof. repeat split. Qed.

Example utf8_sample :
  encode [233; 8364; 128512; 55296]
  = [195; 169; 226; 130; 172; 240; 159; 152; 128; 63]
  /\ decode [237; 160; 128; 97; 240; 159; 152]
     = [65533; 65533; 65533; 97; 65533]
  /\ decode [224; 128; 128; 240; 144; 65; 244; 144; 128; 128; 194; 65;
             225; 128; 65; 241; 128; 128; 65; 225; 128]
     = [65533; 65533; 65533; 65533; 65; 65533; 65533; 65533; 65533; 65533;
        65; 65533; 65; 65533; 65; 65533].
Proof. repeat split. Qed.

Example format_sample :
  format_f 4 (41863606 # 10000) = lit "4186.3606"
  /\ format_f 0 (5 # 2) = lit "2"
  /\ format_f 0 (7 # 2) = lit "4"
  /\ format_f 0 (-3 # 10) = lit "-0"
  /\ LinePacket.transcript_line 0 1720 (lit "Takhle to je")
     = lit "0 1720 Takhle to je".
Proof. repeat split. Qed.

(** * Further properties *)

(** ** The packets of a line *)

(** The packets from [off] on put together: the rest of [data], and for a
    padded send as many NUL as bring the whole to a multiple of the packet
    size. *)
Lemma packets_from_concat (data : bytes) (pad : bool) :
  forall (n : nat) (off : Z),
    0 <= off < len data ->
    len data - off <= Z.of_nat n ->
    exists k,
      0 <= k < PACKET_SIZE
      /\ (len data - off + k) mod PACKET_SIZE = 0
      /\ List.concat
           (map (packet_at data pad) (range_from n off (len data) PACKET_SIZE))
         = skipn (Z.to_nat off) data
             ++ (if pad then repeat 0 (Z.to_nat k) else []).
Proof.
  pose proof PACKET_SIZE_pos as HP.
  induction n as [|n IH]; intros off Hoff Hn; [lia|].
  rewrite range_from_step by lia. cbn [map List.concat].
  destruct (Z.lt_ge_cases (len data - off) PACKET_SIZE) as [Hshort|Hfull].
  - rewrite range_from_done by lia. cbn [map List.concat].
    rewrite app_nil_r, packet_at_short by exact Hshort.
    exists (PACKET_SIZE - (len data - off)). split; [lia|]. split.
    + replace (len data - off + (PACKET_SIZE - (len data - off)))
        with PACKET_SIZE by lia.
      apply Z.mod_same. lia.
    + reflexivity.
  - rewrite packet_at_full by exact Hfull.
    destruct (Z.eq_dec (len data - off) PACKET_SIZE) as [Heq|Hne].
    + rewrite range_from_done by lia. cbn [map List.concat].
      rewrite app_nil_r.
      rewrite firstn_all2 by (rewrite length_skipn; unfold len in *; lia).
      exists 0. split; [lia|]. split.
      * rewrite Z.add_0_r, Heq. apply Z.mod_same. lia.
      * destruct pad; cbn [Z.to_nat repeat]; now rewrite app_nil_r.
    + destruct (IH (off + PACKET_SIZE)) as (k & Hk & Hmod & Hcat); [lia|lia|].
      exists k. split; [exact Hk|]. split.
      * replace (len data - off + k)
          with (len data - (off + PACKET_SIZE) + k + 1 * PACKET_SIZE) by lia.
        rewrite Z_mod_plus_full. exact Hmod.
      * rewrite Hcat, app_assoc. f_equal.
        rewrite Z2Nat.inj_add by lia.
        rewrite Nat.add_comm, <- skipn_skipn. apply firstn_skipn.
Qed.

(** X1. Put end to end, the packets of a line are the UTF-8 of its first
    line, which holds no newline, then one newline; a padded send adds one
    NUL and fewer than a packet of further NULs, which bring the total to a
    multiple of the packet size. Nothing of the line is lost, repeated or
    reordered by the cut into packets. *)
Theorem packets_hold_the_line (text : str) (pad_zeros : bool) :
  ~ In 10 (encode (first_line text))
  /\ exists k,
       0 <= k < PACKET_SIZE
       /\ (len (line_data text pad_zeros) + k) mod PACKET_SIZE = 0
       /\ List.concat (packets_of text pad_zeros)
          = encode (first_line text) ++ [10]
              ++ (if pad_zeros then 0 :: repeat 0 (Z.to_nat k) else []).
Proof.
  split; [apply payload_has_no_newline|].
  pose proof (line_data_nonempty text pad_zeros) as Hpos.
  destruct (packets_from_concat (line_data text pad_zeros) pad_zeros
              (Z.to_nat (len (line_data text pad_zeros) - 0)) 0)
    as (k & Hk & Hmod & Hcat); [lia|lia|].
  exists k. split; [exact Hk|]. split.
  - now rewrite Z.sub_0_r in Hmod.
  - unfold packets_of, range. rewrite Hcat. cbn [Z.to_nat skipn].
    rewrite line_data_first_line.
    destruct pad_zeros; rewrite <- !app_assoc; reflexivity.
Qed.

Lemma packets_from_sizes (data : bytes) (pad : bool) :
  forall (n : nat) (off : Z),
    0 <= off ->
    len data - off <= Z.of_nat n ->
    let ps := map (packet_at data pad)
                (range_from n off (len data) PACKET_SIZE) in
    Forall (fun p => 0 < len p <= PACKET_SIZE) ps
    /\ Forall (fun p => len p = PACKET_SIZE) (removelast ps)
    /\ (pad = true -> Forall (fun p => len p = PACKET_SIZE) ps).
Proof.
  pose proof PACKET_SIZE_pos as HP. cbv zeta.
  induction n as [|n IH]; intros off Hoff Hn.
  - cbn. repeat split; constructor.
  - destruct (Z.lt_ge_cases off (len data)) as [Hlt|Hge].
    2:{ rewrite range_from_done by lia. cbn. repeat split; constructor. }
    rewrite range_from_step by lia. cbn [map].
    destruct (IH (off + PACKET_SIZE)) as (IH1 & IH2 & IH3); [lia|lia|].
    pose proof (packet_at_bounded data pad off ltac:(lia)) as Hb.
    destruct (Z.lt_ge_cases (len data - off) PACKET_SIZE) as [Hshort|Hfull].
    + rewrite range_from_done by lia. cbn [map removelast].
      split; [repeat constructor; lia|]. split; [constructor|].
      intros ->. repeat constructor.
      rewrite packet_at_short by exact Hshort. rewrite len_app.
      unfold len in *. rewrite length_skipn, repeat_length. lia.
    + assert (Hfull_len : len (packet_at data pad off) = PACKET_SIZE).
      { rewrite packet_at_full by exact Hfull. unfold len in *.
        rewrite length_firstn, length_skipn. lia. }
      split; [constructor; [lia|exact IH1]|]. split.
      * destruct (map (packet_at data pad)
                    (range_from n (off + PACKET_SIZE) (len data) PACKET_SIZE))
          as [|p ps] eqn:Hps; [constructor|].
        cbn [removelast] in *. constructor; [exact Hfull_len|exact IH2].
      * intros Hp. constructor; [exact Hfull_len|now apply IH3].
Qed.

(** X2. A line goes out as at least one packet; no packet is empty or
    longer than the packet size; every packet before the last has exactly
    the packet size, and with padding so has the last. *)
Theorem packets_have_the_packet_size (text : str) (pad_zeros : bool) :
  packets_of text pad_zeros <> []
  /\ Forall (fun p => 0 < len p <= PACKET_SIZE) (packets_of text pad_zeros)
  /\ Forall (fun p => len p = PACKET_SIZE)
       (removelast (packets_of text pad_zeros))
  /\ Forall (fun p => len p = PACKET_SIZE) (packets_of text true).
Proof.
  split; [apply packets_of_nonempty|].
  pose proof (fun pad =>
    packets_from_sizes (line_data text pad) pad
      (Z.to_nat (len (line_data text pad) - 0)) 0 ltac:(lia) ltac:(lia)) as H.
  cbv zeta in H.
  destruct (H pad_zeros) as (H1 & H2 & _).
  destruct (H true) as (_ & _ & H3).
  unfold packets_of, range. repeat split; auto.
Qed.

Lemma send_packets_credit data pad offsets :
  forall sock n,
    tx_credit sock = Some n ->
    send_packets sock data pad offsets
    = ((if (List.length offsets <=? n)%nat
        then Returned tt else Raised BrokenPipeError),
       mkSocket (blocking sock) (rx sock)
         (tx sock ++ firstn n (map (packet_at data pad) offsets))
         (Some (n - List.length offsets)%nat)).
Proof.
  induction offsets as [|o os IH]; intros sock n Hn.
  - cbn. rewrite firstn_nil, app_nil_r, Nat.sub_0_r, <- Hn. now destruct sock.
  - cbn [send_packets]. unfold sendall. rewrite Hn.
    destruct n as [|n].
    + cbn. rewrite app_nil_r, <- Hn. now destruct sock.
    + rewrite (IH _ n) by reflexivity. cbn. now rewrite <- app_assoc.
Qed.

(** X3. On a pipe that takes [n] more writes, [send_one_line] writes the
    first [n] packets of the line, in order; it returns if these are all
    the packets and raises [BrokenPipeError] otherwise, the packets already
    written staying written. *)
Theorem send_one_line_on_a_breaking_pipe (sock : socket) (text : str)
    (pad_zeros : bool) (n : nat) :
  tx_credit sock = Some n ->
  send_one_line sock text pad_zeros
  = ((if (List.length (packets_of text pad_zeros) <=? n)%nat
      then Returned tt else Raised BrokenPipeError),
     mkSocket (blocking sock) (rx sock)
       (tx sock ++ firstn n (packets_of text pad_zeros))
       (Some (n - List.length (packets_of text pad_zeros))%nat)).
Proof.
  intros Hn. unfold send_one_line, packets_of.
  rewrite (send_packets_credit _ _ _ sock n Hn). now rewrite length_map.
Qed.

Lemma send_one_line_on_a_breaking_pipe_witness :
  send_one_line (mkSocket true [] [[1]] (Some 0%nat)) [104; 105] false
  = (Raised BrokenPipeError, mkSocket true [] [[1]] (Some 0%nat))
  /\ send_one_line (mkSocket true [] [[1]] (Some 3%nat)) [104; 105] false
     = (Returned tt, mkSocket true [] [[1]; [104; 105; 10]] (Some 2%nat)).
Proof.
  split.
  - exact (send_one_line_on_a_breaking_pipe
             (mkSocket true [] [[1]] (Some 0%nat)) [104; 105] false 0 eq_refl).
  - exact (send_one_line_on_a_breaking_pipe
             (mkSocket true [] [[1]] (Some 3%nat)) [104; 105] false 3 eq_refl).
Defined.

(** ** Reading one line *)

Lemma has_nul_In l : has_nul l = true <-> In 0 l.
Proof.
  split; [|apply has_nul_true].
  unfold has_nul. intros H. apply existsb_exists in H as (x & Hx & Hz).
  apply Z.eqb_eq in Hz. now subst.
Qed.

Lemma split_aux_hd_clean sep s :
  forall cur, ~ In sep cur -> ~ In sep (hd [] (split_aux sep cur s)).
Proof.
  induction s as [|c s IH]; intros cur Hcur; cbn [split_aux].
  - cbn [hd]. now rewrite <- in_rev.
  - destruct (Z.eqb_spec c sep) as [->|Hc].
    + cbn [hd]. now rewrite <- in_rev.
    + apply IH. intros [->|Hin]; [now apply Hc|now apply Hcur].
Qed.

(** The reading loop: it ends within its fuel; what it returns is made of
    the bytes it took from the stream, up to and including the first read
    that holds a NUL. *)
Lemma receive_packets_takes fuel :
  forall sock acc,
    (pending (rx sock) < fuel)%nat ->
    exists r sock' taken,
      receive_packets fuel sock acc = Some (r, sock')
      /\ bytes_of (rx sock) = taken ++ bytes_of (rx sock')
      /\ tx sock' = tx sock
      /\ match r with
         | Returned (Some data) => data = acc ++ taken /\ In 0 taken
         | Returned None => ~ In 0 taken
         | Raised e =>
             ~ In 0 taken
             /\ (e = ConnectionResetError
                 \/ (e = BlockingIOError /\ blocking sock = false))
         end.
Proof.
  pose proof PACKET_SIZE_pos as HP.
  induction fuel as [|fuel IH]; intros sock acc Hf; [lia|].
  cbn [receive_packets]. unfold recv.
  pose proof (recv_events_bytes (blocking sock) PACKET_SIZE (rx sock)
                ltac:(lia)) as Hb.
  destruct (recv_events (blocking sock) PACKET_SIZE (rx sock))
    as [[pkt|e] evs'] eqn:Hr.
  - destruct pkt as [|x pkt].
    + exists (Returned None), (mkSocket (blocking sock) evs' (tx sock) (tx_credit sock)), [].
      cbn. repeat split; auto.
    + destruct (has_nul (x :: pkt)) eqn:Hnul.
      * exists (Returned (Some (acc ++ x :: pkt))),
          (mkSocket (blocking sock) evs' (tx sock) (tx_credit sock)), (x :: pkt).
        cbn [rx tx]. repeat split; auto. now apply has_nul_In.
      * apply recv_events_pending in Hr; [|exact HP|discriminate].
        destruct (IH (mkSocket (blocking sock) evs' (tx sock) (tx_credit sock))
                    (acc ++ x :: pkt))
          as (r & sock' & taken & Hrec & Hbytes & Htx & Hres);
          [cbn [rx]; lia|].
        exists r, sock', ((x :: pkt) ++ taken).
        cbn [rx tx blocking] in *.
        assert (Hclean : ~ In 0 (x :: pkt)).
        { intros Hin. apply has_nul_In in Hin. congruence. }
        split; [exact Hrec|]. split; [now rewrite Hb, Hbytes, app_assoc|].
        split; [exact Htx|].
        destruct r as [[data|]|e].
        -- destruct Hres as [-> Hin]. split; [now rewrite <- app_assoc|].
           apply in_or_app. now right.
        -- intros Hin. apply in_app_or in Hin as [Hin|Hin]; contradiction.
        -- destruct Hres as [Hn He]. split; [|exact He].
           intros Hin. apply in_app_or in Hin as [Hin|Hin]; contradiction.
  - exists (Raised e), (mkSocket (blocking sock) evs' (tx sock) (tx_credit sock)), [].
    cbn [rx tx app]. repeat split; auto.
    apply (recv_events_raised _ _ _ _ _ Hr).
Qed.


(** ** A padded line over a fragmenting stream *)

Lemma zeros_prefix (pkt rest : bytes) n :
  pkt ++ rest = repeat 0 n -> pkt = repeat 0 (List.length pkt).
Proof.
  revert n. induction pkt as [|x pkt IH]; intros n H; [reflexivity|].
  destruct n as [|n]; [discriminate|].
  cbn [app repeat List.length] in *. injection H as -> H.
  f_equal. now apply (IH n).
Qed.

(** A NUL-free read out of a terminated body is a piece of the body. *)
Lemma read_inside_body (pkt rest body : bytes) k :
  pkt ++ rest = body ++ repeat 0 (S k) -> ~ In 0 pkt ->
  exists body', body = pkt ++ body' /\ rest = body' ++ repeat 0 (S k).
Proof.
  revert body. induction pkt as [|x pkt IH]; intros body H Hclean.
  - exists body. split; [reflexivity|exact H].
  - destruct body as [|y body].
    + cbn in H. injection H as -> _. exfalso. apply Hclean. now left.
    + cbn [app] in H. injection H as -> H.
      destruct (IH body H) as (body' & -> & ->).
      * intros Hin. apply Hclean. now right.
      * exists body'. split; reflexivity.
Qed.

(** A read that holds a NUL takes the rest of the body and some padding. *)
Lemma read_reaches_padding (pkt rest body : bytes) k :
  pkt ++ rest = body ++ repeat 0 (S k) -> ~ In 0 body -> In 0 pkt ->
  exists j, pkt = body ++ repeat 0 (S j).
Proof.
  revert pkt. induction body as [|y body IH]; intros pkt H Hclean Hin.
  - cbn [app] in *. apply zeros_prefix in H.
    destruct pkt as [|x pkt]; [contradiction|].
    exists (List.length pkt). exact H.
  - destruct pkt as [|x pkt]; [contradiction|].
    cbn [app] in H. injection H as -> H.
    destruct (IH pkt H) as [j ->].
    + intros Hb. apply Hclean. now right.
    + destruct Hin as [Hin|Hin]; [|exact Hin].
      exfalso. apply Hclean. now left.
    + exists j. reflexivity.
Qed.

Lemma recv_events_data blk bufsize b evs :
  0 < bufsize -> b <> [] -> Forall delivers_data evs ->
  exists pkt evs',
    recv_events blk bufsize (RxData b :: evs) = (Returned pkt, evs')
    /\ pkt <> [] /\ Forall delivers_data evs'
    /\ b ++ bytes_of evs = pkt ++ bytes_of evs'
    /\ (pending evs' < pending (RxData b :: evs))%nat.
Proof.
  intros Hpos Hb Hall. cbn [recv_events].
  destruct (Z.leb_spec (len b) bufsize) as [Hle|Hgt].
  - exists b, evs. repeat split; auto. cbn. lia.
  - exists (slice b 0 bufsize), (RxData (slice_from b bufsize) :: evs).
    unfold slice, slice_from. rewrite Z.sub_0_r. cbn [Z.to_nat skipn].
    assert (Hlen : (Z.to_nat bufsize < List.length b)%nat)
      by (unfold len in Hgt; lia).
    split; [reflexivity|]. split.
    { intros He. apply (f_equal (@List.length Z)) in He.
      rewrite length_firstn in He. cbn in He. lia. }
    split.
    { constructor; [|exact Hall]. eexists. split; [reflexivity|].
      intros He. apply (f_equal (@List.length Z)) in He.
      rewrite length_skipn in He. cbn in He. lia. }
    split.
    { cbn [bytes_of]. now rewrite app_assoc, firstn_skipn. }
    cbn [pending]. rewrite length_skipn. lia.
Qed.

(** However the stream of a terminated, padded body is cut into reads, the
    loop collects the body and some of the padding. *)
Lemma receive_packets_fragments fuel :
  forall sock acc body k,
    Forall delivers_data (rx sock) ->
    bytes_of (rx sock) = body ++ repeat 0 (S k) ->
    ~ In 0 body ->
    (pending (rx sock) < fuel)%nat ->
    exists j sock',
      receive_packets fuel sock acc
      = Some (Returned (Some (acc ++ body ++ repeat 0 (S j))), sock').
Proof.
  pose proof PACKET_SIZE_pos as HP.
  induction fuel as [|fuel IH]; intros sock acc body k Hall Hbytes Hclean Hf;
    [lia|].
  cbn [receive_packets]. unfold recv.
  destruct (rx sock) as [|ev evs] eqn:Hrx.
  { cbn in Hbytes. destruct body; discriminate. }
  inversion Hall as [|? ? (b & -> & Hb) Hall']; subst.
  destruct (recv_events_data (blocking sock) PACKET_SIZE b evs HP Hb Hall')
    as (pkt & evs' & -> & Hpkt & Hall'' & Hsplit & Hpend).
  cbn [bytes_of] in Hbytes. rewrite Hsplit in Hbytes.
  destruct pkt as [|x pkt]; [contradiction|].
  destruct (has_nul (x :: pkt)) eqn:Hnul.
  - apply has_nul_In in Hnul.
    destruct (read_reaches_padding _ _ _ _ Hbytes Hclean Hnul) as [j ->].
    eexists j, _. reflexivity.
  - assert (Hclean' : ~ In 0 (x :: pkt)).
    { intros Hin. apply has_nul_In in Hin. congruence. }
    destruct (read_inside_body _ _ _ _ Hbytes Hclean') as (body' & -> & Hrest).
    destruct (IH (mkSocket (blocking sock) evs' (tx sock) (tx_credit sock))
                (acc ++ x :: pkt) body' k) as (j & sock' & Hrec).
    + exact Hall''.
    + exact Hrest.
    + intros Hin. apply Hclean. apply in_or_app. now right.
    + cbn [rx]. lia.
    + exists j, sock'. rewrite Hrec. now rewrite <- !app_assoc.
Qed.

(** X5. The round trip of a padded line does not depend on how the
    transport cuts the byte stream: whatever non-empty reads deliver the
    bytes of the packets of [L], [receive_one_line] returns the first line
    of [L], lone surrogates replaced by [?], and a newline. *)
Theorem padded_line_survives_fragmentation (L : str) (sock : socket) :
  Forall code_point L ->
  ~ In 0 (first_line L) ->
  Forall delivers_data (rx sock) ->
  bytes_of (rx sock) = List.concat (packets_of L true) ->
  exists sock',
    receive_one_line sock
    = Some (Returned (Some (lossy (first_line L) ++ [10])), sock').
Proof.
  intros Hcp Hnul Hall Hbytes.
  assert (Hfl_cp : Forall code_point (first_line L)).
  { rewrite first_line_until_linebreak.
    now apply until_linebreak_code_points. }
  assert (Hfl_lb : Forall (fun c => is_linebreak c = false) (first_line L)).
  { rewrite first_line_until_linebreak. apply until_linebreak_clean. }
  assert (Hbody : ~ In 0 (encode (first_line L) ++ [10])).
  { intros Hin. apply in_app_or in Hin as [Hin|[Hin|[]]]; [|discriminate].
    now apply (encode_no_nul (first_line L)). }
  pose proof (line_data_nonempty L true) as Hpos.
  destruct (packets_from_concat (line_data L true) true
              (Z.to_nat (len (line_data L true) - 0)) 0)
    as (k & Hk & _ & Hcat); [lia|lia|].
  unfold packets_of, range in Hbytes. rewrite Hcat in Hbytes.
  cbn [Z.to_nat skipn] in Hbytes. rewrite line_data_first_line in Hbytes.
  replace ((encode (first_line L) ++ [10] ++ [0]) ++ repeat 0 (Z.to_nat k))
    with ((encode (first_line L) ++ [10]) ++ repeat 0 (S (Z.to_nat k)))
    in Hbytes by (rewrite <- !app_assoc; reflexivity).
  unfold receive_one_line.
  destruct (receive_packets_fragments (S (pending (rx sock))) sock []
              _ _ Hall Hbytes Hbody ltac:(lia)) as (j & sock' & ->).
  exists sock'. cbn [app]. do 3 f_equal.
  change (repeat 0 (S j)) with ([0] ++ repeat 0 j).
  now rewrite received_line.
Qed.

(** ** Lines received *)

Lemma padded_line_survives_fragmentation_witness :
  exists sock',
    receive_one_line
      (mkSocket true
         [RxData [104];
          RxData ([10; 0] ++ repeat 0 (Z.to_nat (PACKET_SIZE - 3)))] [] None)
    = Some (Returned (Some [104; 10]), sock').
Proof.
  apply (padded_line_survives_fragmentation [104]).
  - repeat constructor; unfold code_point; lia.
  - vm_compute. intuition discriminate.
  - repeat constructor; eexists; (split; [reflexivity|discriminate]).
  - rewrite packets_of_short by reflexivity. reflexivity.
Defined.

(** A line that fits one packet goes out as one packet. *)
Lemma packets_of_single text pad :
  len (line_data text pad) <= PACKET_SIZE ->
  packets_of text pad
  = [line_data text pad
       ++ (if pad
           then repeat 0 (Z.to_nat (PACKET_SIZE - len (line_data text pad)))
           else [])].
Proof.
  intros Hlen. unfold packets_of, range.
  pose proof (line_data_nonempty text pad) as Hpos.
  destruct (Z.to_nat (len (line_data text pad) - 0)) as [|n] eqn:Hn; [lia|].
  rewrite range_from_step by lia. rewrite range_from_done by lia.
  cbn [map]. f_equal.
  destruct (Z.eq_dec (len (line_data text pad)) PACKET_SIZE) as [Heq|Hne].
  - rewrite packet_at_full by lia. cbn [Z.to_nat skipn].
    rewrite firstn_all2 by (unfold len in *; lia).
    rewrite Heq, Z.sub_diag. cbn [Z.to_nat repeat].
    destruct pad; now rewrite app_nil_r.
  - rewrite packet_at_short by lia. now rewrite Z.sub_0_r.
Qed.

Lemma split_line s : ~ In 10 s -> split (s ++ [10]) 10 = [s; []].
Proof.
  intros H. unfold split. now rewrite split_aux_first.
Qed.

(** X6. The pair the connection class uses: a line sent by
    [send_one_line], padded or not, that fits one packet is read by
    [receive_lines] as two lines, the first line of the text (lone
    surrogates replaced by [?]) and the empty rest after its newline. *)
Theorem receive_lines_reads_a_sent_line (L : str) (pad_zeros : bool) :
  Forall code_point L ->
  ~ In 0 (first_line L) ->
  len (line_data L pad_zeros) <= PACKET_SIZE ->
  receive_lines (peer_of (snd (send_one_line idle_socket L pad_zeros)))
  = (Returned (Some [lossy (first_line L); []]), peer_of idle_socket).
Proof.
  intros Hcp Hnul Hlen.
  assert (Hfl_cp : Forall code_point (first_line L)).
  { rewrite first_line_until_linebreak.
    now apply until_linebreak_code_points. }
  assert (Hfl_lb : Forall (fun c => is_linebreak c = false) (first_line L)).
  { rewrite first_line_until_linebreak. apply until_linebreak_clean. }
  pose proof PACKET_SIZE_pos as HP.
  rewrite sent_packets. unfold peer_of. cbn [snd tx].
  rewrite packets_of_single by exact Hlen. cbn [map].
  unfold receive_lines.
  erewrite recv_whole_packet; [|reflexivity|].
  2:{ destruct pad_zeros.
      - rewrite len_app. unfold len in *. rewrite repeat_length. lia.
      - now rewrite app_nil_r. }
  assert (Htext :
    strip (decode (line_data L pad_zeros
                     ++ (if pad_zeros
                         then repeat 0
                                (Z.to_nat (PACKET_SIZE - len (line_data L pad_zeros)))
                         else []))) 0
    = lossy (first_line L) ++ [10]).
  { rewrite line_data_first_line.
    set (k := Z.to_nat (PACKET_SIZE - _)). clearbody k.
    destruct pad_zeros.
    - rewrite <- !app_assoc, decode_encode by exact Hfl_cp.
      change (decode ([10] ++ [0] ++ repeat 0 k))
        with (10 :: decode (repeat 0 (S k))).
      rewrite decode_zeros.
      apply strip_padding. now apply lossy_no_nul.
    - rewrite app_nil_r, decode_encode by exact Hfl_cp.
      change (decode ([10] ++ [])) with (10 :: repeat 0 0).
      apply strip_padding. now apply lossy_no_nul. }
  rewrite Htext, split_line by now apply lossy_no_newline.
  destruct (lossy (first_line L)); reflexivity.
Qed.

Lemma receive_lines_reads_a_sent_line_witness :
  receive_lines (peer_of (snd (send_one_line idle_socket [104; 105; 10; 33] false)))
  = (Returned (Some [[104; 105]; []]), peer_of idle_socket).
Proof.
  apply (receive_lines_reads_a_sent_line [104; 105; 10; 33] false).
  - repeat constructor; unfold code_point; lia.
  - vm_compute. intuition discriminate.
  - vm_compute. discriminate.
Defined.

Lemma split_aux_nonempty sep cur s : split_aux sep cur s <> [].
Proof.
  revert cur. induction s as [|c s IH]; intros cur; cbn [split_aux].
  - discriminate.
  - destruct (c =? sep); [discriminate|apply IH].
Qed.

Lemma receive_lines_empty_list sock sock' :
  receive_lines sock = (Returned (Some []), sock') -> blocking sock = false.
Proof.
  unfold receive_lines, recv.
  destruct (recv_events (blocking sock) PACKET_SIZE (rx sock))
    as [[data|e] evs'] eqn:Hr.
  - pose proof (split_aux_nonempty 10 [] (strip (decode data) 0)) as Hne.
    unfold split. destruct (split_aux 10 [] (strip (decode data) 0))
      as [|[|c l] [|l' ls]]; try discriminate. contradiction.
  - destruct (recv_events_raised _ _ _ _ _ Hr) as [->|[-> Hb]];
      [discriminate|]. intros _. exact Hb.
Qed.


(** ** Connection: successive sends *)

Lemma send_one_line_raised sock text pad e sock' :
  send_one_line sock text pad = (Raised e, sock') ->
  e = BrokenPipeError
  /\ exists n,
       (n < List.length (packets_of text pad))%nat
       /\ tx_credit sock = Some n
       /\ sock' = mkSocket (blocking sock) (rx sock)
                    (tx sock ++ firstn n (packets_of text pad)) (Some 0%nat).
Proof.
  destruct (tx_credit sock) as [n|] eqn:Hc.
  - unfold send_one_line, packets_of.
    rewrite (send_packets_credit _ _ _ sock n Hc). rewrite length_map.
    destruct (Nat.leb_spec
                (List.length
                   (range 0 (len (line_data text pad)) PACKET_SIZE)) n)
      as [Hle|Hgt]; [discriminate|].
    intros [= <- <-]. split; [reflexivity|].
    exists n. repeat split; [exact Hgt|].
    f_equal. f_equal. lia.
  - unfold send_one_line. rewrite send_packets_unlimited by exact Hc.
    discriminate.
Qed.



Lemma last_cons {A : Type} (x : A) (l : list A) (d : A) :
  last (x :: l) d = last l x.
Proof.
  revert x d. induction l as [|y l IH]; intros x d; [reflexivity|].
  change (last (x :: y :: l) d) with (last (y :: l) d).
  now rewrite !IH.
Qed.

(** X9. On a pipe that does not break, a sequence of [send]s puts on the
    wire the packets of each line that differs from the line sent just
    before it, in order: a line repeated at once is written once, a line
    that comes back after another is written again. The connection ends up
    recording the last line of the sequence. *)
Theorem sends_skip_immediate_repeats (c : Connection) (lines : list str) :
  tx_credit (conn c) = None ->
  fst (send_all c lines) = map (fun _ => Returned tt) lines
  /\ wire (snd (send_all c lines))
     = wire c
         ++ List.concat
              (map (fun l => packets_of l false) (squash (last_line c) lines))
  /\ last_line (snd (send_all c lines)) = last lines (last_line c)
  /\ tx_credit (conn (snd (send_all c lines))) = None.
Proof.
  revert c. induction lines as [|l lines IH]; intros c Hc.
  - cbn. now rewrite app_nil_r.
  - cbn [send_all squash map]. unfold send.
    destruct (str_eqb l (last_line c)) eqn:Heq.
    + specialize (IH c Hc). destruct (send_all c lines) as [rs c'].
      cbn [fst snd] in *. destruct IH as (H1 & H2 & H3 & H4).
      apply str_eqb_eq in Heq. subst l.
      repeat split; [now rewrite H1|exact H2| |exact H4].
      rewrite H3. symmetry. apply last_cons.
    + unfold send_one_line. rewrite send_packets_unlimited by exact Hc.
      fold (packets_of l false).
      specialize (IH (mkConnection
                        (mkSocket (blocking (conn c)) (rx (conn c))
                           (tx (conn c) ++ packets_of l false) None) l)
                     eq_refl).
      destruct (send_all _ lines) as [rs c'].
      cbn [fst snd] in *. destruct IH as (H1 & H2 & H3 & H4).
      repeat split; [now rewrite H1| | |exact H4].
      * rewrite H2. unfold wire. cbn [conn tx last_line List.concat].
        now rewrite <- app_assoc.
      * rewrite H3. cbn [last_line]. symmetry. apply last_cons.
Qed.

Lemma sends_skip_immediate_repeats_witness :
  wire (snd (send_all (Connection_init idle_socket)
               [[97]; [97]; [98]; [97]]))
  = [[97; 10]; [98; 10]; [97; 10]].
Proof.
  destruct (sends_skip_immediate_repeats (Connection_init idle_socket)
              [[97]; [97]; [98]; [97]] eq_refl) as (_ & H & _).
  rewrite H. vm_compute. reflexivity.
Defined.

(** ** The chunk that is returned *)

Lemma removelast_snoc {A : Type} (l : list A) (x : A) :
  removelast (l ++ [x]) = l.
Proof. now rewrite removelast_last. Qed.

(** What the loop of [receive_audio_chunk] has done when it ends: it took
    some non-empty reads from the front of the stream and decoded each in
    turn; it went on reading only while the samples at hand were below the
    limit. *)
Lemma accumulate_reads fuel :
  forall c minlimit out out' c',
    accumulate fuel c minlimit out = Some (Returned out', c') ->
    exists reads,
      out' = out ++ map load_pcm16 reads
      /\ Forall (fun r => r <> [] /\ len r <= Connection_PACKET_SIZE) reads
      /\ bytes_of (rx (conn c)) = List.concat reads ++ bytes_of (rx (conn c'))
      /\ (reads = []
          \/ (inject_Z (total_len (out ++ map load_pcm16 (removelast reads)))
              < minlimit)%Q)
      /\ tx (conn c') = tx (conn c) /\ last_line c' = last_line c.
Proof.
  induction fuel as [|fuel IH]; intros c minlimit out out' c'; [discriminate|].
  cbn [accumulate].
  destruct (Qltb (inject_Z (total_len out)) minlimit) eqn:Hlt.
  2:{ intros [= <- <-]. exists []. cbn. rewrite app_nil_r.
      repeat split; auto. }
  apply Qltb_lt in Hlt.
  unfold non_blocking_receive_audio, recv.
  pose proof (recv_events_bytes (blocking (conn c)) Connection_PACKET_SIZE
                (rx (conn c)) ltac:(discriminate)) as Hb.
  destruct (recv_events _ _ _) as [[b|e] evs'] eqn:Hr.
  - destruct b as [|x b].
    + intros [= <- <-]. exists []. cbn. rewrite app_nil_r.
      repeat split; auto.
    + intros H. apply IH in H as (reads & -> & Hall & Hbytes & Hmin & Htx & Hll).
      cbn [conn rx tx last_line] in *.
      exists ((x :: b) :: reads).
      split; [now rewrite <- app_assoc|].
      split.
      { constructor; [|exact Hall]. split; [discriminate|].
        eapply recv_events_bounded; [|exact Hr]. discriminate. }
      split; [cbn [List.concat]; now rewrite Hb, Hbytes, app_assoc|].
      split; [|split; assumption].
      right. destruct Hmin as [->|Hmin].
      * cbn [removelast map]. now rewrite app_nil_r.
      * destruct reads as [|r reads]; [cbn; now rewrite app_nil_r|].
        change (removelast ((x :: b) :: r :: reads))
          with ((x :: b) :: removelast (r :: reads)).
        cbn [map]. now rewrite <- app_assoc in Hmin.
  - destruct e; try discriminate.
    intros [= <- <-]. exists []. cbn. rewrite app_nil_r.
    repeat split; auto.
Qed.

Section ChunkProperties.

Context {E : Type} {engine : OnlineASR E}.

(** X10. A chunk that [receive_audio_chunk] returns is the decoding, read
    by read, of the bytes it took from the front of the stream: no byte is
    skipped and none is read beyond the first read that reaches the limit.
    The first-chunk flag is then cleared; the stored end, the engine, the
    recorded line and the wire are untouched. *)
Theorem returned_chunk_is_what_was_read (self self' : ServerProcessor E)
    (a : audio) :
  receive_audio_chunk self = Some (Returned (Some a), self') ->
  exists reads,
    reads <> []
    /\ Forall (fun r => r <> [] /\ len r <= Connection_PACKET_SIZE) reads
    /\ bytes_of (rx_of self) = List.concat reads ++ bytes_of (rx_of self')
    /\ a = List.concat (map load_pcm16 reads)
    /\ (inject_Z (total_len (map load_pcm16 (removelast reads)))
        < minlimit_of self)%Q
    /\ is_first self' = false
    /\ last_end self' = last_end self
    /\ online_asr_proc self' = online_asr_proc self
    /\ wire (connection self') = wire (connection self)
    /\ last_line (connection self') = last_line (connection self).
Proof.
  unfold receive_audio_chunk, rx_of, wire.
  destruct (accumulate _ _ _ _) as [[[out|e] c']|] eqn:Hacc;
    try discriminate.
  apply accumulate_reads in Hacc
    as (reads & Hout & Hall & Hbytes & Hmin & Htx & Hll).
  cbn [app] in Hout, Hmin. subst out.
  destruct (map load_pcm16 reads) as [|a0 out] eqn:Hm; [discriminate|].
  destruct (_ && _); [discriminate|].
  intros [= <- <-]. exists reads. cbn.
  assert (Hne : reads <> []) by (intros ->; discriminate).
  rewrite Hm. repeat split; auto.
  destruct Hmin as [->|Hmin]; [contradiction|exact Hmin].
Qed.

End ChunkProperties.

Lemma returned_chunk_is_what_was_read_witness :
  let self := set_is_first short_session false in
  exists reads,
    reads <> []
    /\ bytes_of (rx_of self) = List.concat reads ++ []
    /\ [16384 # 32768; -16384 # 32768; 16384 # 32768; -16384 # 32768]%Q
       = List.concat (map load_pcm16 reads).
Proof.
  intros self.
  destruct (returned_chunk_is_what_was_read self
              (set_is_first
                 (set_connection self (with_rx (connection self) [])) false)
              [16384 # 32768; -16384 # 32768; 16384 # 32768; -16384 # 32768]%Q
              eq_refl)
    as (reads & H1 & _ & H2 & H3 & _).
  exists reads. repeat split; assumption.
Defined.

(** ** Session: segments in order, and the end of a session *)

Section SessionExtras.

Context {E : Type} {engine : OnlineASR E}.

(** X11. The clamp is inert on segments that are in order: every line is
    then emitted with the engine's own times, and the stored end is the
    end of the last segment. *)
Theorem ordered_segments_pass_unchanged (self : ServerProcessor E)
    (segs : list (Q * Q * str)) :
  in_order (last_end self) segs ->
  fst (emit_all self segs)
  = map (fun i =>
           Returned (Some (LinePacket.transcript_line
                             (fst (fst i) * 1000) (snd (fst i) * 1000)
                             (snd i))))
        segs
  /\ last_end (snd (emit_all self segs))
     = last (map (fun i => Some (snd (fst i) * 1000)%Q) segs) (last_end self).
Proof.
  revert self. induction segs as [|[[s e] t] segs IH]; intros self Hord.
  - split; reflexivity.
  - cbn [in_order] in Hord. destruct Hord as [Hs Hrest].
    cbn [emit_all]. rewrite format_output_transcript_timed. cbv zeta.
    assert (Hbeg : match last_end self with
                   | Some l => max (s * 1000) l
                   | None => (s * 1000)%Q
                   end = (s * 1000)%Q).
    { destruct (last_end self) as [l|]; [|reflexivity].
      unfold max. now rewrite (proj2 (Qltb_ge _ _) Hs). }
    rewrite Hbeg.
    specialize (IH (print_stderr (set_last_end self (Some (e * 1000)%Q))
                      (LinePacket.transcript_line (s * 1000) (e * 1000) t))
                   Hrest).
    destruct (emit_all _ segs) as [rs self'].
    cbn [fst snd map] in *. destruct IH as [IH1 IH2].
    split; [now rewrite IH1|].
    rewrite IH2. cbn [last_end set_last_end print_stderr].
    symmetry. apply last_cons.
Qed.

Lemma accumulate_blocking fuel :
  forall c minlimit out r c',
    blocking (conn c) = true ->
    accumulate fuel c minlimit out = Some (r, c') ->
    blocking (conn c') = true /\ exists out', r = Returned out'.
Proof.
  induction fuel as [|fuel IH]; intros c minlimit out r c' Hblk;
    [discriminate|].
  cbn [accumulate].
  destruct (Qltb _ minlimit); [|intros [= <- <-]; eauto].
  unfold non_blocking_receive_audio, recv.
  destruct (recv_events _ _ _) as [[b|e] evs'] eqn:Hr.
  - destruct b as [|x b].
    + intros [= <- <-]. eauto.
    + intros H. apply IH in H; [exact H|exact Hblk].
  - destruct (recv_events_raised _ _ _ _ _ Hr) as [->|[-> Hb]].
    + intros [= <- <-]. eauto.
    + congruence.
Qed.

Lemma receive_audio_chunk_blocking (self : ServerProcessor E) r self' :
  blocking (conn (connection self)) = true ->
  receive_audio_chunk self = Some (r, self') ->
  blocking (conn (connection self')) = true /\ exists a, r = Returned a.
Proof.
  intros Hblk. unfold receive_audio_chunk.
  destruct (accumulate _ _ _ _) as [[r0 c']|] eqn:Hacc; [|discriminate].
  apply accumulate_blocking in Hacc as [Hb [out ->]]; [|exact Hblk].
  destruct out as [|a out]; [intros [= <- <-]; eauto|].
  destruct (_ && _); intros [= <- <-]; eauto.
Qed.

Lemma send_packets_outcome sock data pad offsets :
  blocking (snd (send_packets sock data pad offsets)) = blocking sock
  /\ (fst (send_packets sock data pad offsets) = Returned tt
      \/ fst (send_packets sock data pad offsets) = Raised BrokenPipeError).
Proof.
  revert sock. induction offsets as [|o os IH]; intros sock; cbn.
  - auto.
  - unfold sendall. destruct (tx_credit sock) as [[|n]|]; cbn; auto.
    + destruct (IH (mkSocket (blocking sock) (rx sock)
                      (tx sock ++ [packet_at data pad o]) (Some n))); auto.
    + destruct (IH (mkSocket (blocking sock) (rx sock)
                      (tx sock ++ [packet_at data pad o]) None)); auto.
Qed.

Lemma send_outcome c line :
  blocking (conn (snd (send c line))) = blocking (conn c)
  /\ (fst (send c line) = Returned tt
      \/ fst (send c line) = Raised BrokenPipeError).
Proof.
  unfold send. destruct (str_eqb _ _); [auto|].
  unfold send_one_line.
  destruct (send_packets_outcome (conn c) (line_data line false) false
              (range 0 (len (line_data line false)) PACKET_SIZE)) as [Hb Hr].
  destruct (send_packets _ _ _ _) as [[[]|e] s']; cbn in *; auto.
Qed.

Lemma send_result_outcome (self : ServerProcessor E) o :
  fst (fst o) = None \/ snd (fst o) <> None ->
  blocking (conn (connection (snd (send_result self o))))
  = blocking (conn (connection self))
  /\ (fst (send_result self o) = Returned tt
      \/ fst (send_result self o) = Raised BrokenPipeError).
Proof.
  intros Hwf. unfold send_result.
  destruct o as [[[s|] [e|]] t]; cbn in *; auto.
  - destruct (send_outcome (connection self)
      (LinePacket.transcript_line
         match last_end self with
         | Some l => max (s * 1000) l
         | None => (s * 1000)%Q
         end (e * 1000) t)) as [Hb Hr].
    destruct (send _ _) as [r c']. cbn in *. auto.
  - destruct Hwf as [Hwf|Hwf]; [discriminate|contradiction].
Qed.

Lemma process_loop_isolated fuel :
  dependable engine ->
  forall self : ServerProcessor E,
    blocking (conn (connection self)) = true ->
    (pending (rx_of self) < fuel)%nat ->
    exists self', process_loop fuel self = Some (Returned tt, self').
Proof.
  intros Heng. induction fuel as [|fuel IH]; intros self Hblk Hf; [lia|].
  cbn [process_loop].
  destruct (receive_audio_chunk_terminates self) as (r & self1 & Hr).
  rewrite Hr.
  destruct (receive_audio_chunk_blocking _ _ _ Hblk Hr) as [Hblk1 [a ->]].
  destruct a as [a|]; [|eauto].
  apply receive_audio_chunk_pending in Hr as [Hlt _].
  destruct (Heng (online_asr_proc
                    (set_online_asr_proc self1
                       (asr_insert_audio_chunk (online_asr_proc self1) a))))
    as (o & e' & -> & Hwf).
  match goal with
  | |- context [send_result ?s o] =>
      pose proof (send_result_rx s o) as Hrx;
      destruct (send_result_outcome s o Hwf) as [Hb Hout];
      destruct (send_result s o) as [r self2]
  end.
  cbn [fst snd] in *.
  destruct Hout as [->| ->]; [|eauto].
  apply IH.
  - rewrite Hb. exact Hblk1.
  - rewrite Hrx. unfold rx_of in *. cbn in *. lia.
Qed.


End SessionExtras.

Lemma ordered_segments_pass_unchanged_witness :
  fst (emit_all (set_last_end short_session (Some 1000%Q))
         [(1, 2, []); (2, 3, [])]%Q)
  = [Returned (Some (LinePacket.transcript_line (1 * 1000) (2 * 1000) []));
     Returned (Some (LinePacket.transcript_line (2 * 1000) (3 * 1000) []))].
Proof.
  destruct (ordered_segments_pass_unchanged
              (set_last_end short_session (Some 1000%Q))
              [(1, 2, []); (2, 3, [])]%Q) as [H _].
  - cbn. repeat split; discriminate.
  - exact H.
Defined.


(** ** Session: the calls made to the engine *)

Lemma process_loop_protocol fuel :
  forall (self : ServerProcessor (list call)) r self',
    process_loop fuel self = Some (r, self') ->
    exists chunks,
      online_asr_proc self'
      = online_asr_proc self ++ flat_map round_of chunks.
Proof.
  induction fuel as [|fuel IH]; intros self r self'; [discriminate|].
  cbn [process_loop].
  destruct (receive_audio_chunk self) as [[[[a|]|e] self1]|] eqn:Hr;
    try discriminate.
  - apply receive_audio_chunk_pending in Hr as [_ Heng].
    cbn [asr_process_iter asr_insert_audio_chunk recording_engine].
    cbn [send_result format_output_transcript].
    intros H. apply IH in H as [chunks ->]. cbn.
    exists (a :: chunks). rewrite Heng. cbn [flat_map round_of].
    now rewrite <- !app_assoc.
  - intros [= <- <-]. exists []. cbn. rewrite app_nil_r.
    revert Hr. unfold receive_audio_chunk.
    destruct (accumulate _ _ _ _) as [[[out|e] c']|]; try discriminate.
    destruct out as [|a0 out]; [now intros [= <-]|].
    destruct (_ && _); [now intros [= <-]|discriminate].
  - intros [= <- <-]. exists []. cbn. rewrite app_nil_r.
    revert Hr. unfold receive_audio_chunk.
    destruct (accumulate _ _ _ _) as [[[out|e'] c']|]; try discriminate.
    + destruct out as [|a0 out]; [discriminate|].
      destruct (_ && _); discriminate.
    + now intros [= <- <-].
Qed.



(** ** The replay of a file *)

Section ReplayProperties.

Import WhisperOnline.

Lemma int_floor (x : Q) : (0 <= x)%Q -> int x = Qfloor x.
Proof.
  destruct x as [n d]. unfold Qle, int, Qfloor. cbn. intros H.
  apply Z.quot_div_nonneg; lia.
Qed.

Lemma int_monotone (x y : Q) : (0 <= x)%Q -> (x <= y)%Q -> 0 <= int x <= int y.
Proof.
  intros Hx Hxy. rewrite !int_floor by lra.
  split; [|now apply Qfloor_resp_le].
  change 0 with (Qfloor 0). now apply Qfloor_resp_le.
Qed.

Lemma firstn_add {A : Type} (a b : nat) (l : list A) :
  firstn (a + b) l = firstn a l ++ firstn b (skipn a l).
Proof.
  revert l. induction a as [|a IH]; intros l; [reflexivity|].
  destruct l as [|x l]; [now rewrite !firstn_nil|].
  cbn. now rewrite IH.
Qed.

Lemma slice_app {A : Type} (f : list A) (l m h : Z) :
  0 <= l <= m -> m <= h -> slice f l m ++ slice f m h = slice f l h.
Proof.
  intros Hlm Hmh. unfold slice.
  replace (Z.to_nat (h - l)) with (Z.to_nat (m - l) + Z.to_nat (h - m))%nat
    by lia.
  rewrite firstn_add, skipn_skipn.
  now replace (Z.to_nat (m - l) + Z.to_nat l)%nat with (Z.to_nat m) by lia.
Qed.

Lemma slice_to_end {A : Type} (f : list A) (l h : Z) :
  0 <= l -> len f <= h -> slice f l h = slice_from f l.
Proof.
  intros Hl Hh. unfold slice, slice_from.
  apply firstn_all2. rewrite length_skipn. unfold len in Hh. lia.
Qed.

Lemma samples_nonneg (x : Q) : (0 <= x)%Q -> (0 <= x * 16000)%Q.
Proof. intros H. lra. Qed.

(** The last sample index of a window that reaches the end of the file. *)
Lemma int_past_the_end (file : audio) (e : Q) :
  (inject_Z (len file) / inject_Z SAMPLING_RATE <= e)%Q ->
  len file <= int (e * 16000).
Proof.
  intros H.
  assert (Hd : (inject_Z (len file) <= e * 16000)%Q).
  { unfold SAMPLING_RATE in H.
    assert (Heq : (inject_Z (len file)
                   == inject_Z (len file) / inject_Z 16000 * 16000)%Q)
      by (field; discriminate).
    rewrite Heq. lra. }
  assert (H0 : (0 <= e * 16000)%Q).
  { eapply Qle_trans; [|exact Hd]. change 0%Q with (inject_Z 0).
    rewrite <- Zle_Qle. apply len_nonneg. }
  rewrite int_floor by exact H0.
  rewrite <- (Qfloor_Z (len file)). now apply Qfloor_resp_le.
Qed.

(** X14. Windows of the file that follow one another join without gap or
    overlap: the chunk from [a] to [b] followed by the chunk from [b] to
    [c] is the chunk from [a] to [c]; and a window that reaches the end of
    the file or goes beyond it stops at the last sample. *)
Theorem adjacent_chunks_compose (file : audio) (a b c : Q) :
  (0 <= a)%Q -> (a <= b)%Q -> (b <= c)%Q ->
  load_audio_chunk file a b ++ load_audio_chunk file b c
  = load_audio_chunk file a c
  /\ ((inject_Z (len file) / inject_Z SAMPLING_RATE <= c)%Q ->
      load_audio_chunk file a c = slice_from file (int (a * 16000))).
Proof.
  intros Ha Hab Hbc. unfold load_audio_chunk. cbv zeta.
  pose proof (int_monotone (a * 16000) (b * 16000)
                ltac:(lra) ltac:(lra)) as H1.
  pose proof (int_monotone (b * 16000) (c * 16000)
                ltac:(lra) ltac:(lra)) as H2.
  split.
  - apply slice_app; lia.
  - intros Hend. apply slice_to_end; [lia|].
    now apply int_past_the_end.
Qed.

Lemma adjacent_chunks_compose_witness :
  load_audio_chunk [1; 2; 3; 4]%Q 0 (1 # 16000)
    ++ load_audio_chunk [1; 2; 3; 4]%Q (1 # 16000) (1 # 4000)
  = [1; 2; 3; 4]%Q.
Proof.
  destruct (adjacent_chunks_compose [1; 2; 3; 4]%Q 0 (1 # 16000) (1 # 4000))
    as [H1 H2]; [discriminate|discriminate|discriminate|].
  rewrite H1. rewrite H2; [reflexivity|discriminate].
Defined.

Lemma inserted_app l1 l2 : inserted (l1 ++ l2) = inserted l1 ++ inserted l2.
Proof. unfold inserted. apply flat_map_app. Qed.

Lemma flushes_app l1 l2 : flushes (l1 ++ l2) = (flushes l1 + flushes l2)%nat.
Proof. unfold flushes. now rewrite filter_app, length_app. Qed.

(** A window and everything after it make everything from its start. *)
Lemma chunk_then_rest (file : audio) (beg end_ : Q) :
  (0 <= beg)%Q -> (beg <= end_)%Q ->
  load_audio_chunk file beg end_ ++ slice_from file (int (end_ * 16000))
  = slice_from file (int (beg * 16000)).
Proof.
  intros Hb Hbe. unfold load_audio_chunk, slice, slice_from. cbv zeta.
  pose proof (int_monotone (beg * 16000) (end_ * 16000)
                ltac:(lra) ltac:(lra)) as H.
  replace (Z.to_nat (int (end_ * 16000)))
    with (Z.to_nat (int (end_ * 16000) - int (beg * 16000))
          + Z.to_nat (int (beg * 16000)))%nat by lia.
  rewrite <- skipn_skipn. apply firstn_skipn.
Qed.

(** A window that reaches the end of the file holds all that is left. *)
Lemma chunk_to_the_end (file : audio) (beg end_ : Q) :
  (0 <= beg)%Q -> (beg <= end_)%Q ->
  (inject_Z (len file) / inject_Z SAMPLING_RATE <= end_)%Q ->
  load_audio_chunk file beg end_ = slice_from file (int (beg * 16000)).
Proof.
  intros Hb Hbe Hend. unfold load_audio_chunk. cbv zeta.
  pose proof (int_monotone (beg * 16000) (end_ * 16000)
                ltac:(lra) ltac:(lra)) as H.
  apply slice_to_end; [lia|]. now apply int_past_the_end.
Qed.

Section ComputationUnaware.

Variable clock : nat -> Q.

Lemma recorded_iteration start w (log : list call) a now_ :
  iteration clock start w log a (Some now_)
  = (Returned tt, (w, log ++ [CallInsert a; CallProcessIter])).
Proof.
  unfold iteration. cbn. now rewrite <- app_assoc.
Qed.

(** The loop on the recording engine: within [n] further rounds it is
    over, having fed the file from the start of the first window to the
    last sample. *)
Lemma comp_unaware_loop_covers (file : audio) (min_chunk start : Q) :
  (0 < min_chunk)%Q ->
  forall (n : nat) (w : world) (log : list call) (beg end_ : Q),
    (0 <= beg)%Q -> (beg <= end_)%Q ->
    (inject_Z (len file) / inject_Z SAMPLING_RATE - end_
     <= inject_Z (Z.of_nat n) * min_chunk)%Q ->
    exists log',
      comp_unaware_loop clock (S n) file
        (inject_Z (len file) / inject_Z SAMPLING_RATE) min_chunk start
        w log beg end_
      = Some (Returned tt, (w, log'))
      /\ inserted log' = inserted log ++ slice_from file (int (beg * 16000))
      /\ flushes log' = flushes log.
Proof.
  intros Hmc. set (duration := (inject_Z (len file) / inject_Z SAMPLING_RATE)%Q).
  induction n as [|n IH]; intros w log beg end_ Hbeg Hle Hfuel;
    cbn [comp_unaware_loop]; rewrite recorded_iteration.
  - assert (Hdone : (duration <= end_)%Q).
    { change (inject_Z (Z.of_nat 0)) with 0%Q in Hfuel. lra. }
    rewrite (proj2 (Qle_bool_iff _ _) Hdone).
    eexists. split; [reflexivity|]. split.
    + rewrite inserted_app. f_equal. cbn. rewrite app_nil_r.
      now apply chunk_to_the_end.
    + rewrite flushes_app. cbn. lia.
  - destruct (Qle_bool duration end_) eqn:Hd.
    + apply Qle_bool_iff in Hd.
      eexists. split; [reflexivity|]. split.
      * rewrite inserted_app. f_equal. cbn. rewrite app_nil_r.
        now apply chunk_to_the_end.
      * rewrite flushes_app. cbn. lia.
    + assert (Hnot : (end_ < duration)%Q).
      { apply Qnot_le_lt. intros Hc. apply Qle_bool_iff in Hc. congruence. }
      assert (Hsucc : (inject_Z (Z.of_nat (S n))
                       == inject_Z (Z.of_nat n) + 1)%Q).
      { rewrite Nat2Z.inj_succ. unfold Z.succ. now rewrite inject_Z_plus. }
      rewrite Hsucc in Hfuel.
      assert (Hn : (0 <= inject_Z (Z.of_nat n) * min_chunk)%Q).
      { apply Qmult_le_0_compat; [|lra].
        change 0%Q with (inject_Z 0). rewrite <- Zle_Qle. lia. }
      destruct (Qltb duration (end_ + min_chunk)) eqn:Hlast.
      * destruct (IH w (log ++ [CallInsert (load_audio_chunk file beg end_);
                                CallProcessIter]) end_ duration)
          as (log' & Hrun & Hins & Hfl); [lra|lra|lra|].
        exists log'. split; [exact Hrun|]. split.
        -- rewrite Hins, inserted_app. cbn. rewrite app_nil_r, <- app_assoc.
           f_equal. now apply chunk_then_rest.
        -- rewrite Hfl, flushes_app. cbn. lia.
      * apply Qltb_ge in Hlast.
        destruct (IH w (log ++ [CallInsert (load_audio_chunk file beg end_);
                                CallProcessIter]) end_ (end_ + min_chunk)%Q)
          as (log' & Hrun & Hins & Hfl); [lra|lra|lra|].
        exists log'. split; [exact Hrun|]. split.
        -- rewrite Hins, inserted_app. cbn. rewrite app_nil_r, <- app_assoc.
           f_equal. now apply chunk_then_rest.
        -- rewrite Hfl, flushes_app. cbn. lia.
Qed.


End ComputationUnaware.


Section DriverExtras.

Context {E : Type} {engine : OnlineASR E}.

Lemma comp_unaware_loop_clock (clock1 clock2 : nat -> Q) fuel file duration
    min_chunk start1 start2 :
  forall w online beg end_,
    comp_unaware_loop clock1 fuel file duration min_chunk start1 w online
      beg end_
    = comp_unaware_loop clock2 fuel file duration min_chunk start2 w online
        beg end_.
Proof.
  induction fuel as [|fuel IH]; intros w online beg end_; [reflexivity|].
  cbn [comp_unaware_loop].
  assert (Hit : iteration clock1 start1 w online
                  (load_audio_chunk file beg end_) (Some end_)
                = iteration clock2 start2 w online
                    (load_audio_chunk file beg end_) (Some end_)).
  { unfold iteration. destruct (asr_process_iter _) as [[o|e] online'];
      reflexivity. }
  rewrite Hit.
  destruct (iteration clock2 start2 w online _ _) as [[[]|e] [w1 online1]];
    [|reflexivity].
  destruct (Qle_bool duration end_); [reflexivity|]. apply IH.
Qed.

(** X16. The computation-unaware replay is blind to the wall clock: its
    result, what it prints and the emission times it prints included, is
    the same whatever [time.time()] returns during the run. *)
Theorem comp_unaware_ignores_the_clock (clock1 clock2 : nat -> Q)
    (fuel : nat) (file : audio) (start_at min_chunk : Q) (w : world)
    (online : E) :
  main clock1 fuel ComputationUnaware file start_at min_chunk w online
  = main clock2 fuel ComputationUnaware file start_at min_chunk w online.
Proof.
  unfold main. cbn [time]. cbv zeta.
  match goal with
  | |- context [comp_unaware_loop clock1 fuel file ?d min_chunk ?st1 ?w0
                  online ?b ?e] =>
      match goal with
      | |- context [comp_unaware_loop clock2 fuel file d min_chunk ?st2 w0
                      online b e] =>
          rewrite (comp_unaware_loop_clock clock1 clock2 fuel file d
                     min_chunk st1 st2 w0 online b e)
      end
  end.
  match goal with
  | |- context [comp_unaware_loop clock2 fuel file ?d min_chunk ?st ?w0
                  online ?b ?e] =>
      destruct (comp_unaware_loop clock2 fuel file d min_chunk st w0
                  online b e) as [[[[]|e'] [w1 online1]]|]
  end; reflexivity.
Qed.

End DriverExtras.

Lemma mirrored_refl w : mirrored w w.
Proof. exists []. now rewrite !app_nil_r. Qed.

Lemma mirrored_trans w1 w2 w3 :
  mirrored w1 w2 -> mirrored w2 w3 -> mirrored w1 w3.
Proof.
  intros (l1 & H1 & H2) (l2 & H3 & H4). exists (l1 ++ l2).
  now rewrite H3, H4, H1, H2, <- !app_assoc.
Qed.

Section MirrorProperties.

Context {E : Type} {engine : OnlineASR E}.
Variable clock : nat -> Q.

Lemma output_transcript_mirrored start w o now_ :
  mirrored w (snd (output_transcript clock start w o now_)).
Proof.
  destruct now_ as [t|]; [|exists []; cbn; now rewrite !app_nil_r].
  destruct o as [[[s|] [e|]] t']; cbn; try apply mirrored_refl.
  eexists [_]. split; reflexivity.
Qed.

Lemma iteration_mirrored start w online a now_ :
  mirrored w (fst (snd (iteration clock start w online a now_))).
Proof.
  unfold iteration.
  destruct (asr_process_iter _) as [[o|e] online'].
  - pose proof (output_transcript_mirrored start w o now_) as H.
    destruct (output_transcript clock start w o now_) as [[r|e] w']; exact H.
  - destruct e; apply mirrored_refl.
Qed.

Lemma comp_unaware_loop_mirrored fuel file duration min_chunk start :
  forall w online beg end_ r w' online',
    comp_unaware_loop clock fuel file duration min_chunk start w online
      beg end_ = Some (r, (w', online')) ->
    mirrored w w'.
Proof.
  induction fuel as [|fuel IH]; intros w online beg end_ r w' online';
    [discriminate|].
  cbn [comp_unaware_loop].
  pose proof (iteration_mirrored start w online
                (load_audio_chunk file beg end_) (Some end_)) as Hit.
  destruct (iteration clock start w online _ _) as [[[]|e] [w1 online1]];
    cbn in Hit.
  - destruct (Qle_bool duration end_).
    + now intros [= <- <- <-].
    + intros H. apply IH in H. eapply mirrored_trans; eauto.
  - now intros [= <- <- <-].
Qed.

Lemma tick_mirrored w : mirrored w (snd (time clock w)).
Proof. exists []. cbn. now rewrite !app_nil_r. Qed.

Lemma live_loop_mirrored fuel file duration min_chunk start :
  forall w online beg end_ r w' online',
    live_loop clock fuel file duration min_chunk start w online beg end_
    = Some (r, (w', online')) ->
    mirrored w w'.
Proof.
  induction fuel as [|fuel IH]; intros w online beg end_ r w' online';
    [discriminate|].
  cbn [live_loop time]. cbv zeta.
  match goal with
  | |- context [iteration clock start ?w0 online ?a None] =>
      pose proof (iteration_mirrored start w0 online a None) as Hit;
      destruct (iteration clock start w0 online a None)
        as [[[]|e] [w1 online1]]
  end; cbn in Hit.
  - destruct (Qle_bool duration _).
    + now intros [= <- <- <-].
    + intros H. apply IH in H. eapply mirrored_trans; [exact Hit|exact H].
  - now intros [= <- <- <-].
Qed.


End MirrorProperties.


Lemma seconds_monotone : monotone seconds.
Proof.
  intros m n Hmn. unfold seconds. rewrite <- Zle_Qle. lia.
Qed.

Section LiveCoverage.

Variable clock : nat -> Q.
Hypothesis clock_monotone : monotone clock.

Lemma recorded_live_iteration start w (log : list call) a :
  iteration clock start w log a None
  = (Returned tt,
     (mkWorld (stdout w) (logfile w) (S (ticks w)),
      log ++ [CallInsert a; CallProcessIter])).
Proof.
  unfold iteration. cbn. now rewrite <- app_assoc.
Qed.

(** The live loop on the recording engine: once the clock has passed the
    end of the file the loop is over, having fed the file from the start
    of the first window to the last sample. Each round reads the clock
    four times. *)
Lemma live_loop_covers (file : audio) (min_chunk start : Q) :
  forall (n : nat) (w : world) (log : list call) (beg end_ : Q),
    (0 <= beg)%Q ->
    (beg <= clock (ticks w) - start)%Q ->
    (inject_Z (len file) / inject_Z SAMPLING_RATE
     <= clock (ticks w + 1 + 4 * n) - start)%Q ->
    exists w' log',
      live_loop clock (S n) file
        (inject_Z (len file) / inject_Z SAMPLING_RATE) min_chunk start
        w log beg end_
      = Some (Returned tt, (w', log'))
      /\ inserted log' = inserted log ++ slice_from file (int (beg * 16000))
      /\ flushes log' = flushes log.
Proof.
  set (duration := (inject_Z (len file) / inject_Z SAMPLING_RATE)%Q).
  induction n as [|n IH]; intros w log beg end_ Hbeg Hle Hfuel;
    cbn [live_loop time]; cbv zeta; cbn [ticks];
    rewrite recorded_live_iteration; cbn [ticks stdout logfile];
    pose proof (clock_monotone (ticks w) (S (ticks w)) ltac:(lia)) as Hstep.
  - assert (Hdone : (duration <= clock (S (ticks w)) - start)%Q).
    { replace (ticks w + 1 + 4 * 0)%nat with (S (ticks w)) in Hfuel by lia.
      exact Hfuel. }
    rewrite (proj2 (Qle_bool_iff _ _) Hdone).
    eexists _, _. split; [reflexivity|]. split.
    + rewrite inserted_app. f_equal. cbn. rewrite app_nil_r.
      apply chunk_to_the_end; [exact Hbeg|lra|exact Hdone].
    + rewrite flushes_app. cbn. lia.
  - destruct (Qle_bool duration (clock (S (ticks w)) - start)) eqn:Hd.
    + apply Qle_bool_iff in Hd.
      eexists _, _. split; [reflexivity|]. split.
      * rewrite inserted_app. f_equal. cbn. rewrite app_nil_r.
        apply chunk_to_the_end; [exact Hbeg|lra|exact Hd].
      * rewrite flushes_app. cbn. lia.
    + set (w1 := mkWorld (stdout w) (logfile w) (S (S (S (S (ticks w)))))).
      pose proof (clock_monotone (S (ticks w)) (ticks w1) ltac:(cbn; lia))
        as Hnext.
      destruct (IH w1
                  (log ++ [CallInsert (load_audio_chunk file beg
                                         (clock (S (ticks w)) - start));
                           CallProcessIter])
                  (clock (S (ticks w)) - start)%Q
                  (clock (S (ticks w)) - start)%Q)
        as (w' & log' & Hrun & Hins & Hfl).
      * lra.
      * lra.
      * replace (ticks w1 + 1 + 4 * n)%nat
          with (ticks w + 1 + 4 * S n)%nat by (cbn; lia).
        exact Hfuel.
      * exists w', log'. split; [exact Hrun|]. split.
        -- rewrite Hins, inserted_app. cbn. rewrite app_nil_r, <- app_assoc.
           f_equal. apply chunk_then_rest; [exact Hbeg|lra].
        -- rewrite Hfl, flushes_app. cbn. lia.
Qed.


End LiveCoverage.


End ReplayProperties.

(** ** Sizes as shown by the cache tool *)

Section CacheToolProperties.

Lemma round_half_even_Qeq (p q : Q) :
  (p == q)%Q -> round_half_even p = round_half_even q.
Proof.
  intros H. unfold round_half_even. cbv zeta.
  rewrite (Qfloor_comp _ _ H).
  assert (Hc : (p - inject_Z (Qfloor q) ?= 1 # 2)%Q
               = (q - inject_Z (Qfloor q) ?= 1 # 2)%Q).
  { apply Qcompare_comp; [|reflexivity]. now rewrite H. }
  now rewrite Hc.
Qed.

Lemma format_f_Qeq (prec : nat) (p q : Q) :
  (p == q)%Q -> format_f prec p = format_f prec q.
Proof.
  intros H. unfold format_f, Qltb. cbv zeta.
  assert (Hr : round_half_even (Qabs p * inject_Z (10 ^ Z.of_nat prec))
               = round_half_even (Qabs q * inject_Z (10 ^ Z.of_nat prec))).
  { apply round_half_even_Qeq. now rewrite H. }
  assert (Hs : Qle_bool 0 p = Qle_bool 0 q).
  { apply Qleb_comp; [reflexivity|exact H]. }
  now rewrite Hr, Hs.
Qed.

Import ModelDownload.

Lemma format_bytes_from_stop (unit : str) (rest : list str) (q : Q) :
  (q < 1024)%Q ->
  format_bytes_from (unit :: rest) q = format_f 2 q ++ [32] ++ unit.
Proof.
  intros H. cbn [format_bytes_from].
  now rewrite (proj2 (Qltb_lt q 1024) H).
Qed.

Lemma format_bytes_from_next (unit : str) (rest : list str) (q : Q) :
  (1024 <= q)%Q ->
  format_bytes_from (unit :: rest) q = format_bytes_from rest (q / 1024).
Proof.
  intros H. cbn [format_bytes_from].
  now rewrite (proj2 (Qltb_ge q 1024) H).
Qed.

Lemma div_1024_lt (q r : Q) : (q < 1024 * r)%Q -> (q / 1024 < r)%Q.
Proof.
  intros H. unfold Qdiv. change (/ 1024)%Q with (1 # 1024)%Q. lra.
Qed.

Lemma div_1024_ge (q r : Q) : (1024 * r <= q)%Q -> (r <= q / 1024)%Q.
Proof.
  intros H. unfold Qdiv. change (/ 1024)%Q with (1 # 1024)%Q. lra.
Qed.

(** X19. [format_bytes] shows a size in the largest unit it reaches:
    [k] divisions by 1024 and the [k]-th of B, KB, MB, GB, TB, where [k]
    is the number of times 1024 goes into the size, four at most. A size
    under 1024, a negative one included, is shown in B; a size of 1024 TB
    or more is still shown in TB. *)
Theorem format_bytes_picks_the_unit (bytes_value : Q) (k : nat) :
  (k <= 4)%nat ->
  (k = 0%nat \/ (inject_Z (1024 ^ Z.of_nat k) <= bytes_value)%Q) ->
  (k = 4%nat \/ (bytes_value < inject_Z (1024 ^ (Z.of_nat k + 1)))%Q) ->
  format_bytes bytes_value
  = format_f 2 (bytes_value / inject_Z (1024 ^ Z.of_nat k))
      ++ [32] ++ nth k units (lit "TB").
Proof.
  intros Hk Hlo Hhi. unfold format_bytes, units.
  destruct k as [|[|[|[|[|k]]]]]; [| | | | |lia]; cbn [nth].
  - clear Hlo. destruct Hhi as [Hhi|Hhi]; [discriminate Hhi|].
    change (inject_Z (1024 ^ (Z.of_nat 0 + 1))) with 1024%Q in Hhi.
    rewrite format_bytes_from_stop by exact Hhi.
    apply (f_equal (fun s => s ++ _)). apply format_f_Qeq.
    change (inject_Z (1024 ^ Z.of_nat 0)) with 1%Q. field.
  - destruct Hlo as [Hlo|Hlo]; [discriminate Hlo|].
    destruct Hhi as [Hhi|Hhi]; [discriminate Hhi|].
    change (inject_Z (1024 ^ Z.of_nat 1)) with 1024%Q in *.
    change (inject_Z (1024 ^ (Z.of_nat 1 + 1))) with 1048576%Q in Hhi.
    rewrite format_bytes_from_next by exact Hlo.
    rewrite format_bytes_from_stop by (apply div_1024_lt; lra).
    reflexivity.
  - destruct Hlo as [Hlo|Hlo]; [discriminate Hlo|].
    destruct Hhi as [Hhi|Hhi]; [discriminate Hhi|].
    change (inject_Z (1024 ^ Z.of_nat 2)) with 1048576%Q in *.
    change (inject_Z (1024 ^ (Z.of_nat 2 + 1))) with 1073741824%Q in Hhi.
    rewrite format_bytes_from_next by lra.
    rewrite format_bytes_from_next by (apply div_1024_ge; lra).
    rewrite format_bytes_from_stop
      by (apply div_1024_lt, div_1024_lt; lra).
    apply (f_equal (fun s => s ++ _)). apply format_f_Qeq. field.
  - destruct Hlo as [Hlo|Hlo]; [discriminate Hlo|].
    destruct Hhi as [Hhi|Hhi]; [discriminate Hhi|].
    change (inject_Z (1024 ^ Z.of_nat 3)) with 1073741824%Q in *.
    change (inject_Z (1024 ^ (Z.of_nat 3 + 1))) with 1099511627776%Q in Hhi.
    rewrite format_bytes_from_next by lra.
    rewrite format_bytes_from_next by (apply div_1024_ge; lra).
    rewrite format_bytes_from_next
      by (apply div_1024_ge, div_1024_ge; lra).
    rewrite format_bytes_from_stop
      by (apply div_1024_lt, div_1024_lt, div_1024_lt; lra).
    apply (f_equal (fun s => s ++ _)). apply format_f_Qeq. field.
  - destruct Hlo as [Hlo|Hlo]; [discriminate Hlo|]. clear Hhi.
    change (inject_Z (1024 ^ Z.of_nat 4)) with 1099511627776%Q in *.
    rewrite format_bytes_from_next by lra.
    rewrite format_bytes_from_next by (apply div_1024_ge; lra).
    rewrite format_bytes_from_next
      by (apply div_1024_ge, div_1024_ge; lra).
    rewrite format_bytes_from_next
      by (apply div_1024_ge, div_1024_ge, div_1024_ge; lra).
    cbn [format_bytes_from].
    change (lit " TB") with ([32] ++ lit "TB").
    apply (f_equal (fun s => s ++ _)). apply format_f_Qeq. field.
Qed.

Lemma format_bytes_picks_the_unit_witness :
  format_bytes 1536 = lit "1.50 KB".
Proof.
  rewrite (format_bytes_picks_the_unit 1536 1);
    [reflexivity|lia|right; discriminate|right; reflexivity].
Defined.

End CacheToolProperties.

(** ** The HTTP handler *)

Section HandlerProperties.

Context {E : Type} {engine : OnlineASR E}.

Import LinePacket FastapiServer.

(** X20. The HTTP handler against the line server on the segment the
    engine returns for the first window of the file: where a line server
    that has sent nothing yet would send a line, the handler answers with
    that very line; where the line server stays silent, on a segment
    without a start, the handler fails with a [TypeError], the engine
    having taken the audio all the same. *)
Theorem read_root_answers_like_the_line_server (file : audio)
    (min_chunk : Q) (online online' : E) (o : segment) (c : Connection) :
  asr_process_iter
    (asr_insert_audio_chunk online
       (WhisperOnline.load_audio_chunk file 0 min_chunk))
  = (Returned o, online') ->
  snd (read_root file min_chunk online) = online'
  /\ match fst (format_output_transcript
                  (ServerProcessor_init c online' min_chunk) o) with
     | Returned (Some msg) =>
         fst (read_root file min_chunk online) = Returned msg
     | Returned None =>
         fst (read_root file min_chunk online) = Raised TypeError
     | Raised e => fst (read_root file min_chunk online) = Raised e
     end.
Proof.
  intros Hit. unfold read_root. cbv zeta. rewrite Hit.
  destruct o as [[[o0|] [o1|]] o2]; cbn; split; reflexivity.
Qed.

End HandlerProperties.

Lemma read_root_answers_like_the_line_server_witness :
  FastapiServer.read_root [1; 2; 3; 4]%Q 1
    [(Some 0%Q, Some (3 # 2)%Q, lit "hello")]
  = (Returned (lit "0 1500 hello"), []).
Proof.
  pose proof (read_root_answers_like_the_line_server
                (engine := scripted_engine) [1; 2; 3; 4]%Q 1
                [(Some 0%Q, Some (3 # 2)%Q, lit "hello")] []
                (Some 0%Q, Some (3 # 2)%Q, lit "hello")
                (LinePacket.Connection_init idle_socket) eq_refl)
    as [H1 H2].
  destruct (FastapiServer.read_root _ _ _) as [r e].
  cbn in H1, H2. now subst.
Defined.
